(** * Pauli-operator algebra and gate rewriting of the OpenVQE / tequila toolkit

    A shallow embedding of [openvqe/hamiltonian/qubit_hamiltonian.py]
    ([PauliString], [QubitHamiltonian]) and of the gate-rewriting rules that
    [tests/test_recompilation_routines.py] exercises.

    [QubitHamiltonian] wraps openfermion's [QubitOperator], whose only state
    is the dictionary [terms] from term keys to coefficients.  The dictionary
    is modelled by a [gmap]: the loops over it in the source set each key
    once or stop at the first offending term, so that none of the results
    below depends on the order of iteration (the list that [paulistrings]
    returns comes in the order of [map_to_list]).  The dictionary [_data] of
    a [PauliString] is an insertion-ordered association list, because its
    order of iteration is observable: it is the term key. *)

From Stdlib Require Import Ascii String QArith Qcanon.
From stdpp Require Import base numbers list strings gmap fin_maps.

Close Scope Q_scope.
Local Open Scope Z_scope.

(** ** Python exceptions and fallible results *)

Inductive exn := TypeError | ValueError.

Inductive result (A : Type) :=
  | Ok (a : A)
  | Raise (e : exn).
Arguments Ok {A} a.
Arguments Raise {A} e.

(** An exception raised by a statement ends the statements after it. *)
Global Instance result_bind : MBind result := λ A B k r,
  match r with
  | Ok a => k a
  | Raise e => Raise e
  end.

(** ** Coefficients

    Python coefficients ([int], [float], [complex]) are exact complex numbers
    with rational parts here; every finite float is such a number, and
    [conjugate] and multiplication by the integer signs [1] and [-1] are exact
    on floats as well. *)

Record complex := Complex { real : Qc; imag : Qc }.

Definition c_zero : complex := Complex 0%Qc 0%Qc.
Definition c_one : complex := Complex 1%Qc 0%Qc.

(** [value.conjugate()] *)
Definition c_conjugate (z : complex) : complex :=
  Complex (real z) (- imag z)%Qc.

(** [sign * value] for a Python [int] sign *)
Definition int_mul (s : Z) (z : complex) : complex :=
  Complex (Qc_of_Z s * real z)%Qc (Qc_of_Z s * imag z)%Qc.

(** [a + b] *)
Definition c_add (a b : complex) : complex :=
  Complex (real a + real b)%Qc (imag a + imag b)%Qc.

Global Instance complex_eq_dec : EqDecision complex.
Proof. solve_decision. Defined.

(** ** Pauli letters and term keys *)

Inductive Pauli := PauliX | PauliY | PauliZ.

Global Instance Pauli_eq_dec : EqDecision Pauli.
Proof. solve_decision. Defined.

Global Instance Pauli_countable : Countable Pauli.
Proof.
  refine (inj_countable'
    (λ p, match p with PauliX => 0%nat | PauliY => 1%nat | PauliZ => 2%nat end)
    (λ n, match n with 0%nat => PauliX | 1%nat => PauliY | _ => PauliZ end) _).
  by intros [].
Defined.

(** The letter openfermion stores for an action. *)
Definition Pauli_str (p : Pauli) : string :=
  match p with
  | PauliX => "X"
  | PauliY => "Y"
  | PauliZ => "Z"
  end.

Definition ascii_lower (c : ascii) : ascii :=
  let n := nat_of_ascii c in
  if (Nat.leb 65 n && Nat.leb n 90)%bool then ascii_of_nat (n + 32) else c.

Definition ascii_upper (c : ascii) : ascii :=
  let n := nat_of_ascii c in
  if (Nat.leb 97 n && Nat.leb n 122)%bool then ascii_of_nat (n - 32) else c.

Fixpoint str_map (f : ascii → ascii) (s : string) : string :=
  match s with
  | EmptyString => EmptyString
  | String c s' => String (f c) (str_map f s')
  end.

(** [str.lower()] and [str.upper()] on ASCII text *)
Definition lower : string → string := str_map ascii_lower.
Definition upper : string → string := str_map ascii_upper.

(** One factor of a key is the tuple [(index, pauli)]; a key is a tuple of
    factors, the empty tuple being the identity term. *)
Abbreviation factor := (nat * Pauli)%type.
Abbreviation term_key := (list (nat * Pauli)).

(** [QubitHamiltonian.index] and [QubitHamiltonian.pauli] *)
Definition index (ituple : factor) : nat := ituple.1.
Definition pauli (ituple : factor) : Pauli := ituple.2.

(** ** Insertion-ordered dictionaries

    The [dict] behind [PauliString._data]. *)

Section pydict.
Context {K V : Type} `{!EqDecision K, !EqDecision V}.

(** [d.get(k)] *)
Fixpoint dict_get (d : list (K * V)) (k : K) : option V :=
  match d with
  | [] => None
  | (k', v) :: d' => if decide (k' = k) then Some v else dict_get d' k
  end.

(** [d[k] = v]: the value of a key that is present is replaced where it
    stands, a new key goes to the end. *)
Fixpoint dict_set (k : K) (v : V) (d : list (K * V)) : list (K * V) :=
  match d with
  | [] => [(k, v)]
  | (k', v') :: d' =>
      if decide (k' = k) then (k', v) :: d' else (k', v') :: dict_set k v d'
  end.

(** [d1 == d2]: the sizes agree and every item of [d1] is found in [d2]
    with an equal value; the order of insertion plays no part. *)
Definition dict_eqb (d1 d2 : list (K * V)) : bool :=
  bool_decide (length d1 = length d2) &&
  forallb (λ kv, bool_decide (dict_get d2 kv.1 = Some kv.2)) d1.

(** A Python dictionary holds each key once. *)
Definition dict_wf (d : list (K * V)) : Prop := NoDup d.*1.
End pydict.

(** ** [PauliString] *)

Record PauliString := mkPauliString {
  _data : list (nat * Pauli);
  _coeff : option complex
}.

(** [__init__(self, data=None, coeff=None)] *)
Definition PauliString_init (data : option (list (nat * Pauli)))
    (coeff : option complex) : PauliString :=
  match data with
  | None => mkPauliString [] coeff
  | Some d => mkPauliString d coeff
  end.

(** [key_openfermion]:
<<
    key = []
    for k, v in self._data.items():
        key.append((k, v))
    return tuple(key)
>> *)
Definition key_openfermion (self : PauliString) : term_key :=
  fold_left (λ key kv, key ++ [(kv.1, kv.2)]) (_data self) [].

(** [init_from_openfermion]:
<<
    data = {}
    for term in key:
        index = term[0]
        pauli = term[1]
        data[index] = pauli
    return PauliString(data=data, coeff=coeff)
>> *)
Definition init_from_openfermion (key : term_key) (coeff : option complex)
  : PauliString :=
  let data := fold_left (λ data term, dict_set term.1 term.2 data) key [] in
  PauliString_init (Some data) coeff.

(** The property [coeff] and its setter *)
Definition coeff (self : PauliString) : complex :=
  match _coeff self with
  | None => c_one
  | Some c => c
  end.

Definition coeff_setter (self : PauliString) (other : complex) : PauliString :=
  mkPauliString (_data self) (Some other).

(** [__eq__]: [self._data == other._data] *)
Definition PauliString_eq (self other : PauliString) : bool :=
  dict_eqb (_data self) (_data other).

(** ** openfermion's [QubitOperator]: the [terms] dictionary *)

Abbreviation QubitOperator := (gmap term_key complex).

(** [QubitOperator()] : the operator without terms *)
Definition QubitOperator_empty : QubitOperator := ∅.

(** The operator with the one term [terms[term] = coefficient] *)
Definition QubitOperator_term (term : term_key) (coefficient : complex)
  : QubitOperator := {[ term := coefficient ]}.

(** [QubitOperator.identity()] *)
Definition QubitOperator_identity : QubitOperator :=
  QubitOperator_term [] c_one.

(** [op.terms[key] = value] *)
Definition set_term (key : term_key) (value : complex) (op : QubitOperator)
  : QubitOperator := <[ key := value ]> op.

(** [a += b] on operators.
    Modelled from the spec: the body of openfermion's [__iadd__] is not part
    of this repository; the spec has it as the key-wise merge of the
    coefficients. *)
Definition QubitOperator_iadd (a b : QubitOperator) : QubitOperator :=
  union_with (λ x y, Some (c_add x y)) a b.

(** The values this file passes to the constructor. *)
Inductive pyarg :=
  | arg_str (s : string)
  | arg_key (k : term_key)
  | arg_num (c : complex).

(** The constructor of openfermion is
    [__init__(self, term=None, coefficient=1.)].  Python binds the arguments
    of a call to these two parameters and raises [TypeError] for a keyword
    that is neither. *)
Fixpoint bind_arguments (kwargs : list (string * pyarg))
    (term : option pyarg) (coefficient : pyarg)
  : result (option pyarg * pyarg) :=
  match kwargs with
  | [] => Ok (term, coefficient)
  | (name, a) :: rest =>
      if String.eqb name "term" then bind_arguments rest (Some a) coefficient
      else if String.eqb name "coefficient" then bind_arguments rest term a
      else Raise TypeError
  end.

Fixpoint parse_digits (s : string) (acc : nat) : option nat :=
  match s with
  | EmptyString => Some acc
  | String c s' => d ← Ascii.is_nat c; parse_digits s' (10 * acc + d)%nat
  end.

Definition parse_factor (tok : string) : option (nat * Pauli) :=
  match tok with
  | EmptyString => None
  | String c digits =>
      p ← (if Ascii.eqb c "X" then Some PauliX
           else if Ascii.eqb c "Y" then Some PauliY
           else if Ascii.eqb c "Z" then Some PauliZ
           else None);
      i ← (match digits with
           | EmptyString => None
           | _ => parse_digits digits 0
           end);
      Some (i, p)
  end.

(** Modelled from the spec: openfermion's parser of a term given as a string
    is not part of this repository; the spec has the string as axis letters
    with qubit indices, separated by blanks, the factors going into the key
    in the order they are written. *)
Definition parse_string (s : string) : result term_key :=
  match mapM parse_factor (String.words s) with
  | Some key => Ok key
  | None => Raise ValueError
  end.

(** [QubitOperator(...)].  A key given as a tuple is stored as it stands
    (openfermion orders the factors of a new key by qubit index, which leaves
    the keys of an existing operator as they are). *)
Definition QubitOperator_init (kwargs : list (string * pyarg))
  : result QubitOperator :=
  '(term, coefficient) ← bind_arguments kwargs None (arg_num c_one);
  match coefficient with
  | arg_num c =>
      match term with
      | None => Ok QubitOperator_empty
      | Some (arg_key key) => Ok (QubitOperator_term key c)
      | Some (arg_str str) => key ← parse_string str; Ok (QubitOperator_term key c)
      | Some (arg_num _) => Raise ValueError
      end
  | _ => Raise ValueError
  end.

(** ** [QubitHamiltonian] *)

(** A [QubitHamiltonian] has the single field [_hamiltonian]; it is
    identified with it. *)
Abbreviation QubitHamiltonian := (gmap term_key complex).

(** [init_zero] is [QubitOperator('', 0.0)]: the empty string is the key of
    the identity term, which is stored with the coefficient it is given. *)
Definition init_zero : QubitHamiltonian := QubitOperator_term [] c_zero.
Definition init_unit : QubitHamiltonian := QubitOperator_identity.

(** [init_from_string]: [QubitOperator(string.upper(), 1.0)] *)
Definition init_from_string (str : string) : result QubitHamiltonian :=
  QubitOperator_init [("term", arg_str (upper str));
                      ("coefficient", arg_num c_one)].

(** [init_from_paulistring]:
    [QubitOperator(term=ps.key_openfermion(), coefficient=ps.coeff)] *)
Definition init_from_paulistring (ps : PauliString) : result QubitHamiltonian :=
  QubitOperator_init [("term", arg_key (key_openfermion ps));
                      ("coefficient", arg_num (coeff ps))].

(** The inner loop shared by [conjugate] and [transpose]:
<<
    sign = 1
    for term in key:
        p = self.pauli(term)
        if p.lower() == "y":
            sign *= -1
>> *)
Definition is_y (p : Pauli) : bool := String.eqb (lower (Pauli_str p)) "y".

Definition y_sign (key : term_key) : Z :=
  fold_left (λ sign term, if is_y (pauli term) then sign * -1 else sign) key 1.

(** [conjugate]:
<<
    conj_hamiltonian = QubitOperator('', 0)
    for key, value in self._hamiltonian.terms.items():
        sign = ...
        conj_hamiltonian.terms[key] = sign * value.conjugate()
>> *)
Definition conjugate (self : QubitHamiltonian) : QubitHamiltonian :=
  map_fold (λ key value conj_hamiltonian,
              set_term key (int_mul (y_sign key) (c_conjugate value))
                       conj_hamiltonian)
           (QubitOperator_term [] c_zero) self.

(** [transpose]: the same loop with
    [trans_hamiltonian.terms[key] = sign * value] *)
Definition transpose (self : QubitHamiltonian) : QubitHamiltonian :=
  map_fold (λ key value trans_hamiltonian,
              set_term key (int_mul (y_sign key) value) trans_hamiltonian)
           (QubitOperator_term [] c_zero) self.

(** [dagger]:
<<
    dag_hamiltonian = QubitOperator('', 0)
    for key, value in self._hamiltonian.terms.items():
        dag_hamiltonian.terms[key] = value.conjugate()
>> *)
Definition dagger (self : QubitHamiltonian) : QubitHamiltonian :=
  map_fold (λ key value dag_hamiltonian,
              set_term key (c_conjugate value) dag_hamiltonian)
           (QubitOperator_term [] c_zero) self.

(** [self.values()] *)
Definition values (self : QubitHamiltonian) : list complex :=
  (map_to_list self).*2.

(** [is_hermitian] and [is_antihermitian]:
<<
    for v in self.values():
        if v.imag != 0.0:       # v.real in is_antihermitian
            return False
    return True
>> *)
Fixpoint all_imag_zero (vs : list complex) : bool :=
  match vs with
  | [] => true
  | v :: vs' => if negb (bool_decide (imag v = 0%Qc)) then false
                else all_imag_zero vs'
  end.

Fixpoint all_real_zero (vs : list complex) : bool :=
  match vs with
  | [] => true
  | v :: vs' => if negb (bool_decide (real v = 0%Qc)) then false
                else all_real_zero vs'
  end.

Definition is_hermitian (self : QubitHamiltonian) : bool :=
  all_imag_zero (values self).

Definition is_antihermitian (self : QubitHamiltonian) : bool :=
  all_real_zero (values self).

(** Python's [max] over a list: [ValueError] on the empty list. *)
Definition py_max (l : list nat) : result nat :=
  match l with
  | [] => Raise ValueError
  | x :: l' => Ok (fold_left Nat.max l' x)
  end.

(** [n_qubits]:
<<
    n_qubits = 0
    for key, value in self.items():
        indices = [self.index(k) for k in key]
        n_qubits = max(n_qubits, max(indices))
    return n_qubits + 1
>>
    An exception raised by an iteration ends the loop. *)
Definition n_qubits_step (key : term_key) (value : complex)
    (acc : result nat) : result nat :=
  n_qubits ← acc;
  let indices := index <$> key in
  m ← py_max indices;
  Ok (Nat.max n_qubits m).

Definition n_qubits (self : QubitHamiltonian) : result nat :=
  n_qubits ← map_fold n_qubits_step (Ok 0%nat) self;
  Ok (n_qubits + 1)%nat.

(** What the loop of [n_qubits] holds after the terms of [m]: the exception
    once the identity key has come by, and otherwise the largest index seen,
    0 before any. *)
Definition n_qubits_loop_inv (r : result nat) (m : QubitHamiltonian) : Prop :=
  (is_Some (m !! []) → r = Raise ValueError) ∧
  (m !! [] = None →
   ∃ n, r = Ok n ∧
        (∀ key v q p, m !! key = Some v → (q, p) ∈ key → (q ≤ n)%nat) ∧
        (n = 0%nat ∨ ∃ key v p, m !! key = Some v ∧ (n, p) ∈ key)).

(** The getter of [paulistrings]:
    [[PauliString.init_from_openfermion(key=k, coeff=v) for k, v in self.items()]] *)
Definition paulistrings (self : QubitHamiltonian) : list PauliString :=
  (λ kv, init_from_openfermion kv.1 (Some kv.2)) <$> map_to_list self.

(** The setter of [paulistrings]:
<<
    new_hamiltonian = QubitOperator.identity()
    for ps in other:
        tmp = QubitOperator(term=ps.key_openfermion(), value=ps.coeff)
        new_hamiltonian += tmp
    self._hamiltonian = new_hamiltonian
    return self
>>
    The result is the new state of [self]; an exception leaves no new
    state. *)
Definition paulistrings_setter_step (acc : result QubitOperator)
    (ps : PauliString) : result QubitOperator :=
  new_hamiltonian ← acc;
  tmp ← QubitOperator_init [("term", arg_key (key_openfermion ps));
                            ("value", arg_num (coeff ps))];
  Ok (QubitOperator_iadd new_hamiltonian tmp).

Definition paulistrings_setter (self : QubitHamiltonian)
    (other : list PauliString) : result QubitHamiltonian :=
  fold_left paulistrings_setter_step other (Ok QubitOperator_identity).

(** ** Gates, circuits and the rewriting rules

    Modelled from the spec: the modules [tequila.circuit.gates] and
    [tequila.circuit.compiler], which define the gates, the circuits and
    [compile_swap] and [compile_ch], are not among the source files; only
    their test [tests/test_recompilation_routines.py] is.  A gate has a kind,
    an ordered list of target qubits, a list of control qubits, an optional
    angle and a dagger flag; a circuit is the sequence of its gates, and [+]
    on circuits is concatenation. *)

Inductive gate_kind :=
  | KX | KY | KZ | KH | KS | KT | KRx | KRy | KRz
  | KRotation | KExpPauli | KSWAP | KPhase.

Inductive angle :=
  | Named (name : string)
  | Numeric (value : Qc).

Module Gate.
Record t := mk {
  kind : gate_kind;
  targets : list nat;
  controls : list nat;
  parameter : option angle;
  dagger : bool
}.
End Gate.

Global Instance gate_kind_eq_dec : EqDecision gate_kind.
Proof. solve_decision. Defined.

Global Instance angle_eq_dec : EqDecision angle.
Proof. solve_decision. Defined.

Global Instance Gate_eq_dec : EqDecision Gate.t.
Proof. solve_decision. Defined.

Abbreviation QCircuit := (list Gate.t).

(** Modelled from the spec: two circuits are equal when their gate sequences
    are equal gate by gate, in order. *)
Definition QCircuit_eqb (c1 c2 : QCircuit) : bool := bool_decide (c1 = c2).

Module gates.
Definition X (target : nat) (control : option nat) : QCircuit :=
  [Gate.mk KX [target] (option_list control) None false].
Definition H (target : nat) (control : option nat) : QCircuit :=
  [Gate.mk KH [target] (option_list control) None false].
Definition S (target : nat) (dagger : bool) : QCircuit :=
  [Gate.mk KS [target] [] None dagger].
Definition T (target : nat) : QCircuit :=
  [Gate.mk KT [target] [] None false].
Definition CX (target control : nat) : QCircuit := X target (Some control).
Definition SWAP (first second : nat) : QCircuit :=
  [Gate.mk KSWAP [first; second] [] None false].
End gates.

(** Modelled from the spec: SWAP(a,b) becomes CX(target=a,control=b),
    CX(target=b,control=a), CX(target=a,control=b); a gate that is not a SWAP
    is left as it is. *)
Definition compile_swap_gate (g : Gate.t) : QCircuit :=
  match Gate.kind g, Gate.targets g, Gate.controls g with
  | KSWAP, [a; b], [] => gates.CX a b ++ gates.CX b a ++ gates.CX a b
  | _, _, _ => [g]
  end.

(** Modelled from the spec: controlled-H(target, control) becomes H(target),
    S(target, dagger=True), CX(target, control), H(target), T(target),
    CX(target, control), T(target), H(target), S(target), X(target),
    S(control); any other gate is left as it is. *)
Definition compile_ch_gate (g : Gate.t) : QCircuit :=
  match Gate.kind g, Gate.targets g, Gate.controls g with
  | KH, [target], [control] =>
      gates.H target None ++ gates.S target true ++ gates.CX target control
      ++ gates.H target None ++ gates.T target ++ gates.CX target control
      ++ gates.T target ++ gates.H target None ++ gates.S target false
      ++ gates.X target None ++ gates.S control false
  | _, _, _ => [g]
  end.

(** Modelled from the spec: a rule is applied to every gate of the circuit
    on its own, and the results are concatenated in the order of the
    gates. *)
Definition compile_swap (circuit : QCircuit) : QCircuit :=
  circuit ≫= compile_swap_gate.

Definition compile_ch (circuit : QCircuit) : QCircuit :=
  circuit ≫= compile_ch_gate.

(** ** Sample operators *)

Definition X0 : QubitHamiltonian :=
  QubitOperator_term [(0%nat, PauliX)] c_one.

Definition X0Y1 : QubitHamiltonian :=
  QubitOperator_term [(0%nat, PauliX); (1%nat, PauliY)] c_one.

(** [{0: 'X', 1: 'Y'}] with coefficient 2, and the same dictionary filled in
    the other order, without a coefficient. *)
Definition ps_X0Y1 : PauliString :=
  mkPauliString [(0%nat, PauliX); (1%nat, PauliY)] (Some (Complex 2%Qc 0%Qc)).

Definition ps_Y1X0 : PauliString :=
  mkPauliString [(1%nat, PauliY); (0%nat, PauliX)] None.

(** The number of Y factors of a key. *)
Definition count_y (key : term_key) : nat :=
  length (filter (λ term, pauli term = PauliY) key).

(** ** [ParametersQC] of [openvqe/hamiltonian/hamiltonian_qc.py]

    Strings are ASCII text. *)

Module ParametersQC.

Inductive error := AssertionError | ValueError | IndexError.

Inductive outcome (A : Type) :=
  | Return (a : A)
  | Throw (e : error).
Arguments Return {A} a.
Arguments Throw {A} e.

#[global] Instance outcome_bind : MBind outcome := λ A B k r,
  match r with
  | Return a => k a
  | Throw e => Throw e
  end.

(** [format_element_name]:
<<
    assert (len(string) > 0)
    assert (isinstance(string, str))
    fstring = string[0].upper() + string[1:].lower()
    return fstring
>>
    [upper] and [lower] map character to character, as [str.upper()] and
    [str.lower()] do on ASCII text ([is_ascii] below); outside of it Python
    may change the number of characters. *)
Definition format_element_name (str : string) : outcome string :=
  match str with
  | EmptyString => Throw AssertionError
  | String c rest => Return (String (ascii_upper c) (lower rest))
  end.

(** The characters that [str.split()] and [str.isspace()] take for white
    space: tab to carriage return, the four separators and the blank. *)
Definition py_isspace (c : ascii) : bool :=
  let n := nat_of_ascii c in
  (Nat.leb 9 n && Nat.leb n 13) || (Nat.leb 28 n && Nat.leb n 32).

Definition string_of_rev (l : list ascii) : string :=
  string_of_list_ascii (rev l).

(** [line.split()]: the maximal runs of characters that are no white space;
    [word] holds the run being read, last character first. *)
Fixpoint split_whitespace_from (word : list ascii) (s : string) : list string :=
  match s with
  | EmptyString =>
      match word with
      | [] => []
      | _ => [string_of_rev word]
      end
  | String c s' =>
      if py_isspace c then
        match word with
        | [] => split_whitespace_from [] s'
        | _ => string_of_rev word :: split_whitespace_from [] s'
        end
      else split_whitespace_from (c :: word) s'
  end.

Definition split_whitespace (s : string) : list string :=
  split_whitespace_from [] s.

(** [s.split(sep)] for a separator of one character: the pieces between the
    separators, the empty ones too. *)
Fixpoint split_at_from (sep : ascii) (piece : list ascii) (s : string)
  : list string :=
  match s with
  | EmptyString => [string_of_rev piece]
  | String c s' =>
      if Ascii.eqb c sep then string_of_rev piece :: split_at_from sep [] s'
      else split_at_from sep (c :: piece) s'
  end.

Definition split_at (sep : ascii) (s : string) : list string :=
  split_at_from sep [] s.

Definition newline : ascii := ascii_of_nat 10.

Section convert.
Context {F : Type}.

(** [numpy.float64(word)]: the number read, or [None] for the [ValueError]
    of a word that is no number. *)
Context (float64 : string → option F).

(** [convert_to_list]:
<<
    result = []
    for line in geometry.split('\n'):
        words = line.split()
        if len(words) != 4:  break
        try:
            tmp = (ParametersQC.format_element_name(words[0]),
                   (float64(words[1]), float64(words[2]), float64(words[3])))
            result.append(tmp)
        except ValueError:
            print("get_geometry list unknown line:\n ", line, ...)
    return result
>>
    The state of the loop is [result] and the lines printed so far; an
    [AssertionError] is not caught. *)
Fixpoint convert_lines (lines : list string)
    (result : list (string * (F * F * F))) (printed : list string)
  : outcome (list (string * (F * F * F)) * list string) :=
  match lines with
  | [] => Return (result, printed)
  | line :: rest =>
      match split_whitespace line with
      | [w0; w1; w2; w3] =>
          name ← format_element_name w0;
          match float64 w1, float64 w2, float64 w3 with
          | Some x, Some y, Some z =>
              convert_lines rest (result ++ [(name, (x, y, z))]) printed
          | _, _, _ => convert_lines rest result (printed ++ [line])
          end
      | _ => Return (result, printed)
      end
  end.

Definition convert_to_list (geometry : string)
  : outcome (list (string * (F * F * F)) * list string) :=
  convert_lines (split_at newline geometry) [] [].

End convert.

(** [content[i]] *)
Definition item (content : list string) (i : nat) : outcome string :=
  match content !! i with
  | Some line => Return line
  | None => Throw IndexError
  end.

Section read_xyz.
(** [int(line)]: [None] for the [ValueError] of a line that is no integer. *)
Context (int : string → option Z).

(** [read_xyz_from_file], on the lines [file.readlines()] returns:
<<
    natoms = int(content[0])
    comment = str(content[1])
    coord = ''
    for i in range(natoms):
        coord += content[2 + i]
    return coord, comment
>> *)
Definition read_xyz_step (content : list string) (acc : outcome string)
    (i : nat) : outcome string :=
  coord ← acc;
  line ← item content (2 + i);
  Return (coord +:+ line).

Definition read_xyz_from_file (content : list string)
  : outcome (string * string) :=
  first ← item content 0;
  natoms ← (match int first with
            | Some n => Return n
            | None => Throw ValueError
            end);
  comment ← item content 1;
  coord ← fold_left (read_xyz_step content) (seq 0 (Z.to_nat natoms))
                    (Return EmptyString);
  Return (coord, comment).
End read_xyz.

(** [s.lstrip(chars)], [s.rstrip(chars)] and [s.strip(chars)]: the
    characters of [chars] are taken off the two ends. *)
Definition in_chars (chars : string) (c : ascii) : bool :=
  bool_decide (c ∈ list_ascii_of_string chars).

Fixpoint lstrip_list (chars : string) (l : list ascii) : list ascii :=
  match l with
  | [] => []
  | c :: l' => if in_chars chars c then lstrip_list chars l' else l
  end.

Definition py_strip (chars : string) (s : string) : string :=
  let l := lstrip_list chars (list_ascii_of_string s) in
  string_of_list_ascii (rev (lstrip_list chars (rev l))).

(** The file name that [parse_ccsd_amplitudes] stores before it computes
    the molecule again: [filename.strip(".out")]. *)
Definition recomputed_filename (filename : string) : string :=
  py_strip ".out" filename.

End ParametersQC.

(** ASCII text: every character is below 128. *)
Definition is_ascii (s : string) : Prop :=
  Forall (λ c, (nat_of_ascii c < 128)%nat) (list_ascii_of_string s).

(** Readers of the decimal numbers without sign, for the samples. *)
Definition sample_int (s : string) : option Z :=
  match ParametersQC.split_whitespace s with
  | [w] => Z.of_nat <$> parse_digits w 0
  | _ => None
  end.

Definition sample_float64 (w : string) : option Z :=
  Z.of_nat <$> parse_digits w 0.

(** A key in the order openfermion keeps it: qubit indices increasing. *)
Definition key_sorted (key : term_key) : Prop :=
  ∀ (i j : nat) (a b : nat * Pauli),
    (i < j)%nat → key !! i = Some a → key !! j = Some b → (a.1 < b.1)%nat.

(** * Properties *)

(** ** Coefficient arithmetic *)

Lemma int_mul_1 v : int_mul 1 v = v.
Proof.
  destruct v as [r i]; unfold int_mul; cbn [real imag].
  rewrite Z2Qc_inj_1. f_equal; ring.
Qed.

Lemma int_mul_zero s : int_mul s c_zero = c_zero.
Proof. unfold int_mul, c_zero; cbn [real imag]. f_equal; ring. Qed.

Lemma int_mul_mul s t v : int_mul s (int_mul t v) = int_mul (s * t) v.
Proof.
  destruct v as [r i]; unfold int_mul; cbn [real imag].
  rewrite Z2Qc_inj_mul. f_equal; ring.
Qed.

Lemma int_mul_conjugate s v :
  int_mul s (c_conjugate v) = c_conjugate (int_mul s v).
Proof.
  destruct v as [r i]; unfold int_mul, c_conjugate; cbn [real imag].
  f_equal; ring.
Qed.

Lemma c_conjugate_zero : c_conjugate c_zero = c_zero.
Proof. unfold c_conjugate, c_zero; cbn [real imag]. f_equal; ring. Qed.

(** ** The sign of a key *)

Lemma is_y_spec p : is_y p = true ↔ p = PauliY.
Proof. destruct p; vm_compute; split; congruence. Qed.

Lemma y_sign_acc key s :
  fold_left (λ sign term, if is_y (pauli term) then sign * -1 else sign) key s
  = s * (-1) ^ Z.of_nat (count_y key).
Proof.
  revert s; induction key as [|[q p] key IH]; intros s.
  - unfold count_y; simpl. lia.
  - cbn [fold_left]. rewrite IH. unfold count_y. rewrite filter_cons.
    destruct p; cbn [pauli snd]; case_decide; try done;
      change (is_y _) with true || change (is_y _) with false;
      cbn [length]; try lia.
    rewrite Nat2Z.inj_succ, Z.pow_succ_r by lia. lia.
Qed.

Lemma y_sign_count key : y_sign key = (-1) ^ Z.of_nat (count_y key).
Proof. unfold y_sign. rewrite y_sign_acc. lia. Qed.

Lemma y_sign_square key : y_sign key * y_sign key = 1.
Proof.
  rewrite y_sign_count, <-Z.pow_mul_l. change (-1 * -1) with 1.
  apply Z.pow_1_l. lia.
Qed.

(** ** Loops that fill an operator term by term *)

Section fold_set.
Context (f : term_key → complex → complex) (b : QubitOperator).

Lemma fold_set_term_lookup (m : QubitOperator) (i : term_key) :
  map_fold (λ key value acc, set_term key (f key value) acc) b m !! i
  = match m !! i with Some v => Some (f i v) | None => b !! i end.
Proof.
  apply (map_fold_weak_ind (λ r m', r !! i =
    match m' !! i with Some v => Some (f i v) | None => b !! i end)).
  - by rewrite lookup_empty.
  - intros k x m' r Hk IH. unfold set_term.
    destruct (decide (k = i)) as [->|Hne].
    + by rewrite !lookup_insert_eq.
    + by rewrite !lookup_insert_ne.
Qed.
End fold_set.

(** [QubitOperator('', 0)], the operator that [conjugate], [transpose] and
    [dagger] fill: the identity key with coefficient 0. *)
Lemma QubitOperator_init_zero :
  QubitOperator_init [("term", arg_str EmptyString);
                      ("coefficient", arg_num c_zero)] = Ok init_zero.
Proof. reflexivity. Qed.

Lemma init_zero_lookup key :
  init_zero !! key = if decide (key = []) then Some c_zero else None.
Proof.
  unfold init_zero, QubitOperator_term. case_decide as Hk.
  - subst. by rewrite lookup_singleton_eq.
  - by rewrite lookup_singleton_ne.
Qed.

Lemma conjugate_lookup H key :
  conjugate H !! key =
  match H !! key with
  | Some v => Some (int_mul (y_sign key) (c_conjugate v))
  | None => init_zero !! key
  end.
Proof.
  unfold conjugate.
  apply (fold_set_term_lookup (λ k v, int_mul (y_sign k) (c_conjugate v))).
Qed.

Lemma transpose_lookup H key :
  transpose H !! key =
  match H !! key with
  | Some v => Some (int_mul (y_sign key) v)
  | None => init_zero !! key
  end.
Proof.
  unfold transpose. apply (fold_set_term_lookup (λ k v, int_mul (y_sign k) v)).
Qed.

Lemma dagger_lookup H key :
  dagger H !! key =
  match H !! key with
  | Some v => Some (c_conjugate v)
  | None => init_zero !! key
  end.
Proof. unfold dagger. apply (fold_set_term_lookup (λ _ v, c_conjugate v)). Qed.

(** ** [conjugate], [transpose] and [dagger] *)

(** C7: for every key of [H], [conjugate H] holds at that key the conjugate
    of the coefficient multiplied by [(-1)] to the number of Y factors of the
    key. *)
Theorem conjugate_key_coefficient (H : QubitHamiltonian) key value :
  H !! key = Some value →
  conjugate H !! key
  = Some (int_mul ((-1) ^ Z.of_nat (count_y key)) (c_conjugate value)).
Proof.
  intros Hk. by rewrite conjugate_lookup, Hk, y_sign_count.
Qed.

Lemma conjugate_key_coefficient_X0Y1 :
  X0Y1 !! [(0%nat, PauliX); (1%nat, PauliY)] = Some c_one ∧
  conjugate X0Y1 !! [(0%nat, PauliX); (1%nat, PauliY)]
  = Some (int_mul ((-1) ^ Z.of_nat (count_y [(0%nat, PauliX); (1%nat, PauliY)]))
                  (c_conjugate c_one)).
Proof.
  split.
  - apply lookup_singleton_eq.
  - apply conjugate_key_coefficient. apply lookup_singleton_eq.
Defined.

(** C8: [conjugate H] is [transpose (dagger H)] and also
    [dagger (transpose H)]. *)
Theorem conjugate_transpose_dagger (H : QubitHamiltonian) :
  conjugate H = transpose (dagger H) ∧ conjugate H = dagger (transpose H).
Proof.
  split; apply map_eq; intros key.
  - rewrite conjugate_lookup, transpose_lookup, dagger_lookup.
    destruct (H !! key) as [v|]; [done|].
    rewrite init_zero_lookup. case_decide; [|done].
    by rewrite int_mul_zero.
  - rewrite conjugate_lookup, dagger_lookup, transpose_lookup.
    destruct (H !! key) as [v|]; [by rewrite int_mul_conjugate|].
    rewrite init_zero_lookup. case_decide; [|done].
    by rewrite c_conjugate_zero.
Qed.

Lemma dagger_key_coefficient (H : QubitHamiltonian) key value :
  H !! key = Some value → dagger H !! key = Some (c_conjugate value).
Proof. intros Hk. by rewrite dagger_lookup, Hk. Qed.

(** C6, as the code has it: [dagger H] holds the conjugate of every
    coefficient of [H], with no sign, over the zero operator it starts from:
    the identity key is in the result with coefficient 0 when [H] has no
    identity term, and there is no other change. *)
Theorem dagger_conjugates_over_zero (H : QubitHamiltonian) :
  dagger H = (c_conjugate <$> H) ∪ init_zero.
Proof.
  apply map_eq; intros key.
  rewrite dagger_lookup, lookup_union, lookup_fmap.
  destruct (H !! key); simpl; [by destruct (init_zero !! key)|].
  by rewrite (left_id_L None _).
Qed.

(** C6, as the claim has it ([dagger H] is [H] with every coefficient
    conjugated and nothing else changed), fails on the one-term operator
    X0: the result has the identity key as well. *)
Lemma dagger_X0_has_identity_term :
  dagger X0 !! [] = Some c_zero ∧
  (c_conjugate <$> X0) !! [] = None ∧
  dagger X0 ≠ c_conjugate <$> X0.
Proof.
  assert (dagger X0 !! [] = Some c_zero) as Hd.
  { rewrite dagger_lookup. unfold X0, QubitOperator_term.
    rewrite lookup_singleton_ne by done. by rewrite init_zero_lookup. }
  assert ((c_conjugate <$> X0) !! [] = None) as Hc.
  { rewrite lookup_fmap. unfold X0, QubitOperator_term.
    by rewrite lookup_singleton_ne. }
  split; [done|]. split; [done|].
  intros Heq. rewrite Heq in Hd. congruence.
Qed.

(** The signs of [conjugate] and [transpose] cancel: [dagger] is the
    transpose of the conjugate, on every operator. *)
Remark dagger_transpose_conjugate (H : QubitHamiltonian) :
  dagger H = transpose (conjugate H).
Proof.
  apply map_eq; intros key.
  rewrite dagger_lookup, transpose_lookup, conjugate_lookup.
  destruct (H !! key) as [v|].
  - by rewrite int_mul_mul, y_sign_square, int_mul_1.
  - rewrite init_zero_lookup. case_decide; [|done]. by rewrite int_mul_zero.
Qed.

(** ** [is_hermitian] and [is_antihermitian] *)

(** A scan that returns [False] at the first violation is a [Forall]. *)
Ltac scan_Forall vs :=
  let v := fresh "v" in
  let IH := fresh "IH" in
  induction vs as [|v vs IH]; simpl;
  [ split; [constructor|done]
  | rewrite Forall_cons; case_bool_decide; simpl;
    [ rewrite IH; tauto | split; [done|tauto] ] ].

Lemma all_imag_zero_Forall vs :
  all_imag_zero vs = true ↔ Forall (λ v, imag v = 0%Qc) vs.
Proof. scan_Forall vs. Qed.

Lemma all_real_zero_Forall vs :
  all_real_zero vs = true ↔ Forall (λ v, real v = 0%Qc) vs.
Proof. scan_Forall vs. Qed.

Lemma elem_of_values (H : QubitHamiltonian) v :
  v ∈ values H ↔ ∃ key, H !! key = Some v.
Proof.
  unfold values. rewrite list_elem_of_fmap. split.
  - intros [[key v'] [-> Hin]]. exists key. by apply elem_of_map_to_list.
  - intros [key Hk]. exists (key, v). split; [done|].
    by apply elem_of_map_to_list.
Qed.

(** C9: [is_hermitian] returns true exactly when every coefficient has
    imaginary part zero, [is_antihermitian] exactly when every coefficient
    has real part zero. *)
Theorem hermitian_antihermitian_iff (H : QubitHamiltonian) :
  (is_hermitian H = true ↔ ∀ key v, H !! key = Some v → imag v = 0%Qc) ∧
  (is_antihermitian H = true ↔ ∀ key v, H !! key = Some v → real v = 0%Qc).
Proof.
  unfold is_hermitian, is_antihermitian.
  rewrite all_imag_zero_Forall, all_real_zero_Forall, !Forall_forall.
  split; split.
  - intros Hall key v Hk. apply Hall, elem_of_values. eauto.
  - intros Hall v [key Hk]%elem_of_values. eauto.
  - intros Hall key v Hk. apply Hall, elem_of_values. eauto.
  - intros Hall v [key Hk]%elem_of_values. eauto.
Qed.

(** ** [n_qubits] *)

Lemma fold_left_max_spec (l : list nat) (x : nat) :
  let M := fold_left Nat.max l x in
  (x ≤ M)%nat ∧ (∀ y, y ∈ l → (y ≤ M)%nat) ∧ (M = x ∨ M ∈ l).
Proof.
  revert x; induction l as [|a l IH]; intros x; simpl.
  - split; [lia|]. split; [by intros ? ?%elem_of_nil|by left].
  - destruct (IH (Nat.max x a)) as (Hx & Hall & Hin).
    split; [lia|]. split.
    + intros y [->|Hy]%elem_of_cons; [lia|by apply Hall].
    + destruct Hin as [->|Hin].
      * destruct (Nat.max_spec x a) as [[_ ->]|[_ ->]]; [right; left|by left].
      * right; by right.
Qed.

Lemma py_max_indices (key : term_key) :
  key ≠ [] →
  ∃ M, py_max (index <$> key) = Ok M ∧
       (∀ q p, (q, p) ∈ key → (q ≤ M)%nat) ∧ (∃ p, (M, p) ∈ key).
Proof.
  destruct key as [|[q0 p0] key]; [done|intros _].
  cbn [fmap list_fmap py_max index fst].
  destruct (fold_left_max_spec (index <$> key) q0) as (Hx & Hall & Hin).
  eexists; split; [done|]. split.
  - intros q p [[= -> ->]|Hqp]%elem_of_cons; [done|].
    apply Hall, list_elem_of_fmap. by exists (q, p).
  - destruct Hin as [->|Hin].
    + exists p0; left.
    + apply list_elem_of_fmap in Hin as [[q p] [Hq Hin]].
      cbn [index fst] in Hq. rewrite Hq. exists p. by right.
Qed.

Lemma n_qubits_loop (H : QubitHamiltonian) :
  n_qubits_loop_inv (map_fold n_qubits_step (Ok 0%nat) H) H.
Proof.
  apply (map_fold_weak_ind n_qubits_loop_inv); clear H.
  - split.
    + rewrite lookup_empty. by intros [? ?].
    + intros _. exists 0%nat. split; [done|]. split; [|by left].
      intros key v q p. by rewrite lookup_empty.
  - intros key value m r Hfresh [IHerr IHok]. split.
    + intros Hid. destruct (decide (key = [])) as [->|Hne].
      * destruct (IHok Hfresh) as (n & -> & _). done.
      * rewrite lookup_insert_ne in Hid by done. by rewrite (IHerr Hid).
    + intros Hid. apply lookup_insert_None in Hid as [Hid Hne].
      destruct (IHok Hid) as (n & -> & Hub & Hatt).
      destruct (py_max_indices key Hne) as (M & HM & HubM & [pM HattM]).
      exists (Nat.max n M). split.
      { unfold n_qubits_step. cbn [mbind result_bind]. by rewrite HM. }
      split.
      * intros k v q p Hk Hin.
        apply lookup_insert_Some in Hk as [[<- <-]|[? Hk]].
        -- specialize (HubM q p Hin). lia.
        -- specialize (Hub k v q p Hk Hin). lia.
      * destruct (Nat.max_spec n M) as [[_ ->]|[Hle ->]].
        -- right. exists key, value, pM. by rewrite lookup_insert_eq.
        -- destruct Hatt as [->|(k & v & p & Hk & Hin)].
           ++ right. assert (M = 0%nat) as -> by lia.
              exists key, value, pM. by rewrite lookup_insert_eq.
           ++ right. exists k, v, p. split; [|done].
              rewrite lookup_insert_ne; [done|].
              by intros ->; rewrite Hfresh in Hk.
Qed.

(** [max] of no indices: an operator with the identity term has no
    [n_qubits]. *)
Lemma n_qubits_identity_raises (H : QubitHamiltonian) :
  is_Some (H !! []) → n_qubits H = Raise ValueError.
Proof.
  intros Hid. unfold n_qubits.
  destruct (n_qubits_loop H) as [Herr _]. by rewrite (Herr Hid).
Qed.

Lemma n_qubits_no_identity (H : QubitHamiltonian) :
  H !! [] = None →
  ∃ m, n_qubits H = Ok (1 + m)%nat ∧
       (∀ key v q p, H !! key = Some v → (q, p) ∈ key → (q ≤ m)%nat) ∧
       (H ≠ ∅ → ∃ key v p, H !! key = Some v ∧ (m, p) ∈ key) ∧
       (H = ∅ → m = 0%nat).
Proof.
  intros Hid. destruct (n_qubits_loop H) as [_ Hok].
  destruct (Hok Hid) as (m & Hm & Hub & Hatt).
  exists m. split; [|split; [done|split]].
  - unfold n_qubits. rewrite Hm. cbn [mbind result_bind]. f_equal. lia.
  - intros Hne. destruct Hatt as [->|Hatt]; [|done].
    apply map_choose in Hne as (key & v & Hk).
    destruct key as [|[q p] key]; [congruence|].
    pose proof (Hub _ v q p Hk ltac:(left)) as Hq.
    assert (q = 0%nat) as -> by lia. exists ((0%nat, p) :: key), v, p.
    split; [done|left].
  - intros ->. destruct Hatt as [->|(k & v & p & Hk & _)]; [done|].
    by rewrite lookup_empty in Hk.
Qed.

(** Where the loop meets no identity key it does what it is written for: on
    an operator without the identity term, [n_qubits] is 1 + [m], where [m]
    bounds the qubit index of every factor of every key and is the index of
    one of them ([m] is 0 on the operator without terms); and [n_qubits] of
    the operator read from the string X0 Y1 is 2. *)
Theorem n_qubits_max_index :
  (∀ H : QubitHamiltonian,
     H !! [] = None →
     ∃ m, n_qubits H = Ok (1 + m)%nat ∧
          (∀ key v q p, H !! key = Some v → (q, p) ∈ key → (q ≤ m)%nat) ∧
          (H ≠ ∅ → ∃ key v p, H !! key = Some v ∧ (m, p) ∈ key) ∧
          (H = ∅ → m = 0%nat)) ∧
  (init_from_string "X0 Y1" ≫= n_qubits) = Ok 2%nat.
Proof.
  split; [exact n_qubits_no_identity|]. vm_compute. reflexivity.
Qed.

Lemma n_qubits_max_index_X0Y1 :
  X0Y1 !! [] = None ∧
  ∃ m, n_qubits X0Y1 = Ok (1 + m)%nat ∧
       (∀ key v q p, X0Y1 !! key = Some v → (q, p) ∈ key → (q ≤ m)%nat) ∧
       (X0Y1 ≠ ∅ → ∃ key v p, X0Y1 !! key = Some v ∧ (m, p) ∈ key) ∧
       (X0Y1 = ∅ → m = 0%nat).
Proof.
  assert (X0Y1 !! [] = None) as Hid by (by apply lookup_singleton_ne).
  split; [exact Hid|]. exact (proj1 n_qubits_max_index X0Y1 Hid).
Defined.

(** C1 on the code: on the identity operator, whose one key has no index,
    [max] of the empty list of indices raises [ValueError], and [n_qubits]
    returns no 0. *)
Lemma n_qubits_identity_fails :
  n_qubits init_unit = Raise ValueError ∧ n_qubits init_unit ≠ Ok 0%nat.
Proof.
  assert (n_qubits init_unit = Raise ValueError) as Hn.
  { apply n_qubits_identity_raises. unfold init_unit, QubitOperator_identity,
      QubitOperator_term. rewrite lookup_singleton_eq. by eexists. }
  split; [done|]. rewrite Hn. done.
Qed.

(** ** Dictionaries *)

Section pydict_facts.
Context {K V : Type} `{!EqDecision K, !EqDecision V}.
Implicit Types d : list (K * V).

Lemma dict_get_None d k : dict_get d k = None ↔ k ∉ d.*1.
Proof.
  induction d as [|[k' v] d IH]; simpl.
  - split; [intros _; apply not_elem_of_nil|done].
  - rewrite not_elem_of_cons.
    case_decide; [split; [done|intros [? _]; congruence]|].
    rewrite IH. split; [by split|tauto].
Qed.

Lemma dict_get_Some d k v : dict_wf d → dict_get d k = Some v ↔ (k, v) ∈ d.
Proof.
  unfold dict_wf. induction d as [|[k' v'] d IH]; simpl; intros Hwf.
  - split; [done|by intros ?%elem_of_nil].
  - apply NoDup_cons in Hwf as [Hk' Hwf]. rewrite elem_of_cons.
    case_decide as Hk; subst.
    + split; [intros [= ->]; by left|].
      intros [[= ->]|Hin]; [done|].
      destruct Hk'. apply list_elem_of_fmap. by exists (k, v).
    + rewrite (IH Hwf). split; [by right|]. intros [[= -> ->]|?]; done.
Qed.

Lemma dict_set_keys k v d : k ∉ d.*1 → dict_set k v d = d ++ [(k, v)].
Proof.
  induction d as [|[k' v'] d IH]; simpl; [done|].
  intros [Hne Hk]%not_elem_of_cons. case_decide; [congruence|].
  by rewrite IH.
Qed.

Lemma dict_eqb_lookups d1 d2 :
  dict_wf d1 → dict_wf d2 →
  dict_eqb d1 d2 = true ↔ ∀ k, dict_get d1 k = dict_get d2 k.
Proof.
  intros Hwf1 Hwf2. unfold dict_eqb.
  rewrite andb_true_iff, bool_decide_eq_true, forallb_forall. split.
  - intros [Hlen Hall] k.
    assert (∀ k v, (k, v) ∈ d1 → dict_get d2 k = Some v) as Hsub.
    { intros k' v Hin. apply list_elem_of_In, Hall in Hin.
      by apply bool_decide_eq_true in Hin. }
    destruct (dict_get d1 k) as [v|] eqn:Hk.
    + symmetry. by apply Hsub, dict_get_Some.
    + symmetry. apply dict_get_None. apply dict_get_None in Hk.
      assert (d1.*1 ≡ₚ d2.*1) as Hperm.
      { apply submseteq_length_Permutation; [|by rewrite !length_fmap, Hlen].
        apply NoDup_submseteq; [done|].
        intros k' [[k2 v] [-> Hin]]%list_elem_of_fmap. simpl.
        apply Hsub in Hin. destruct (decide (k2 ∈ d2.*1)) as [|Hn]; [done|].
        apply dict_get_None in Hn. congruence. }
      by rewrite <-Hperm.
  - intros Heq. split.
    + rewrite <-(length_fmap fst d1), <-(length_fmap fst d2).
      apply Permutation_length, NoDup_Permutation; [done..|].
      intros k.
      destruct (decide (k ∈ d1.*1)) as [Hk1|Hk1],
               (decide (k ∈ d2.*1)) as [Hk2|Hk2]; try tauto; exfalso.
      * apply dict_get_None in Hk2. rewrite <-Heq in Hk2.
        by apply dict_get_None in Hk2.
      * apply dict_get_None in Hk1. rewrite Heq in Hk1.
        by apply dict_get_None in Hk1.
    + intros [k v] Hin%list_elem_of_In. apply bool_decide_eq_true. simpl.
      rewrite <-Heq. by apply dict_get_Some.
Qed.
End pydict_facts.

(** ** [PauliString] *)

Lemma key_openfermion_data (ps : PauliString) : key_openfermion ps = _data ps.
Proof.
  unfold key_openfermion.
  assert (∀ d acc,
    fold_left (λ key (kv : nat * Pauli), key ++ [(kv.1, kv.2)]) d acc
    = acc ++ d) as Hacc.
  { induction d as [|[k v] d IH]; intros acc; simpl; [by rewrite app_nil_r|].
    by rewrite IH, <-app_assoc. }
  apply Hacc.
Qed.

(** A key with one factor per qubit goes through [init_from_openfermion] and
    [key_openfermion] unchanged. *)
Lemma key_openfermion_init_from_openfermion (key : term_key) coeff :
  NoDup key.*1 → key_openfermion (init_from_openfermion key coeff) = key.
Proof.
  intros Hnd. rewrite key_openfermion_data.
  unfold init_from_openfermion, PauliString_init. cbn [_data].
  assert (∀ k acc, NoDup (acc ++ k).*1 →
    fold_left (λ data (term : nat * Pauli), dict_set term.1 term.2 data) k acc
    = acc ++ k) as Hacc.
  { induction k as [|[q p] k IH]; intros acc Hacc; simpl.
    - by rewrite app_nil_r.
    - rewrite dict_set_keys.
      + rewrite IH; [by rewrite <-app_assoc|]. by rewrite <-app_assoc.
      + rewrite fmap_app in Hacc. apply NoDup_app in Hacc as (_ & Hdis & _).
        intros Hin. apply (Hdis q Hin). left. }
  by apply (Hacc key []).
Qed.

(** C10: two [PauliString]s compare equal exactly when their dictionaries
    map every qubit to the same axis, and the coefficients play no part in
    the comparison. *)
Theorem PauliString_eq_data (a b : PauliString) :
  dict_wf (_data a) → dict_wf (_data b) →
  (PauliString_eq a b = true
   ↔ ∀ q, dict_get (_data a) q = dict_get (_data b) q) ∧
  (∀ ca cb, PauliString_eq (coeff_setter a ca) (coeff_setter b cb)
            = PauliString_eq a b).
Proof.
  intros Ha Hb. split; [by apply dict_eqb_lookups|]. done.
Qed.

Lemma PauliString_eq_data_X0Y1 :
  dict_wf (_data ps_X0Y1) ∧ dict_wf (_data ps_Y1X0) ∧
  (PauliString_eq ps_X0Y1 ps_Y1X0 = true
   ↔ ∀ q, dict_get (_data ps_X0Y1) q = dict_get (_data ps_Y1X0) q) ∧
  (∀ ca cb, PauliString_eq (coeff_setter ps_X0Y1 ca) (coeff_setter ps_Y1X0 cb)
            = PauliString_eq ps_X0Y1 ps_Y1X0).
Proof.
  assert (dict_wf (_data ps_X0Y1)) as Ha
    by (apply (bool_decide_unpack _); vm_compute; exact I).
  assert (dict_wf (_data ps_Y1X0)) as Hb
    by (apply (bool_decide_unpack _); vm_compute; exact I).
  split; [exact Ha|]. split; [exact Hb|].
  exact (PauliString_eq_data ps_X0Y1 ps_Y1X0 Ha Hb).
Defined.

(** The two sample strings differ in coefficient and in the order of their
    dictionaries, and compare equal. *)
Example PauliString_eq_ignores_coeff :
  PauliString_eq ps_X0Y1 ps_Y1X0 = true ∧ coeff ps_X0Y1 ≠ coeff ps_Y1X0.
Proof. split; [by vm_compute|]. by vm_compute. Qed.

(** ** The [paulistrings] property *)

Lemma fold_left_raise (other : list PauliString) e :
  fold_left paulistrings_setter_step other (Raise e) = Raise e.
Proof. induction other as [|ps other IH]; [done|apply IH]. Qed.

(** The keyword [value] is no parameter of the constructor: the first
    [PauliString] of the list ends the setter. *)
Lemma paulistrings_setter_cons self ps other :
  paulistrings_setter self (ps :: other) = Raise TypeError.
Proof. unfold paulistrings_setter. cbn [fold_left]. apply fold_left_raise. Qed.

Lemma paulistrings_setter_nil self :
  paulistrings_setter self [] = Ok QubitOperator_identity.
Proof. reflexivity. Qed.

(** The setter makes no use of the state it replaces. *)
Lemma paulistrings_setter_overwrites self self' other :
  paulistrings_setter self other = paulistrings_setter self' other.
Proof. reflexivity. Qed.

Lemma paulistrings_nil (H : QubitHamiltonian) : paulistrings H = [] ↔ H = ∅.
Proof.
  unfold paulistrings. rewrite <-map_to_list_empty_iff. split.
  - apply fmap_nil_inv.
  - by intros ->.
Qed.

Lemma paulistrings_roundtrip_raises (H : QubitHamiltonian) :
  H ≠ ∅ → paulistrings_setter H (paulistrings H) = Raise TypeError.
Proof.
  intros Hne. destruct (paulistrings H) as [|ps l] eqn:Hps.
  - by apply paulistrings_nil in Hps.
  - apply paulistrings_setter_cons.
Qed.

(** C2 on the code: assigning the [paulistrings] of the operator X0 back
    raises [TypeError], and assigning the [paulistrings] of the operator
    without terms back leaves the identity operator, which has a term. *)
Theorem paulistrings_roundtrip_fails :
  paulistrings_setter X0 (paulistrings X0) = Raise TypeError ∧
  paulistrings_setter ∅ (paulistrings ∅) = Ok QubitOperator_identity ∧
  QubitOperator_identity !! [] = Some c_one ∧
  (∅ : QubitHamiltonian) !! [] = None.
Proof.
  split; [|split; [|split]].
  - apply paulistrings_roundtrip_raises. intros Hps.
    apply (f_equal (.!! [(0%nat, PauliX)])) in Hps.
    unfold X0, QubitOperator_term in Hps.
    by rewrite lookup_singleton_eq, lookup_empty in Hps.
  - unfold paulistrings. by rewrite map_to_list_empty.
  - apply lookup_singleton_eq.
  - apply lookup_empty.
Qed.

(** ** Rewriting rules *)

Lemma compile_swap_app (c1 c2 : QCircuit) :
  compile_swap (c1 ++ c2) = compile_swap c1 ++ compile_swap c2.
Proof. unfold compile_swap. apply bind_app. Qed.

Lemma compile_ch_app (c1 c2 : QCircuit) :
  compile_ch (c1 ++ c2) = compile_ch c1 ++ compile_ch c2.
Proof. unfold compile_ch. apply bind_app. Qed.

(** The three gates that replace a SWAP are left alone by the rule. *)
Lemma compile_swap_idempotent_on_swap (a b : nat) :
  compile_swap (compile_swap (gates.SWAP a b)) = compile_swap (gates.SWAP a b).
Proof. reflexivity. Qed.

(** C4: compiling SWAP(a, b) gives CX(target=a, control=b),
    CX(target=b, control=a), CX(target=a, control=b), gate by gate in this
    order; so it does for SWAP(0, 3). *)
Theorem compile_swap_three_cnots (a b : nat) :
  compile_swap (gates.SWAP a b)
  = gates.X a (Some b) ++ gates.X b (Some a) ++ gates.X a (Some b).
Proof. reflexivity. Qed.

(** C5: compiling the controlled H(target, control) gives the eleven gates
    H(target), S(target, dagger), CX(target, control), H(target), T(target),
    CX(target, control), T(target), H(target), S(target), X(target),
    S(control), gate by gate in this order. *)
Theorem compile_ch_sequence (target control : nat) :
  compile_ch (gates.H target (Some control))
  = gates.H target None ++ gates.S target true ++ gates.CX target control
    ++ gates.H target None ++ gates.T target ++ gates.CX target control
    ++ gates.T target ++ gates.H target None ++ gates.S target false
    ++ gates.X target None ++ gates.S control false.
Proof. reflexivity. Qed.

(** [test_compile_swap] and [test_compile_ch] *)
Example test_compile_swap :
  QCircuit_eqb (compile_swap (gates.SWAP 0 3))
    (gates.X 0 (Some 3%nat) ++ gates.X 3 (Some 0%nat) ++ gates.X 0 (Some 3%nat))
  = true.
Proof. by vm_compute. Qed.

Example test_compile_ch :
  QCircuit_eqb (compile_ch (gates.H 2 (Some 4%nat)))
    (gates.H 2 None ++ gates.S 2 true ++ gates.CX 2 4
     ++ gates.H 2 None ++ gates.T 2 ++ gates.CX 2 4
     ++ gates.T 2 ++ gates.H 2 None ++ gates.S 2 false
     ++ gates.X 2 None ++ gates.S 4 false)
  = true.
Proof. by vm_compute. Qed.

Example compile_ch_2_4_length :
  length (compile_ch (gates.H 2 (Some 4%nat))) = 11%nat.
Proof. reflexivity. Qed.

(** * Further properties of [qubit_hamiltonian.py] *)

(** ** The three operations, composed *)

Lemma union_zero_lookup (H : QubitHamiltonian) key :
  (H ∪ init_zero) !! key
  = match H !! key with Some v => Some v | None => init_zero !! key end.
Proof.
  rewrite lookup_union. destruct (H !! key); simpl.
  - by destruct (init_zero !! key).
  - by rewrite (left_id_L None _).
Qed.

Lemma c_conjugate_involutive v : c_conjugate (c_conjugate v) = v.
Proof.
  destruct v as [r i]; unfold c_conjugate; cbn [real imag]. f_equal; ring.
Qed.

Lemma int_mul_y_sign_twice key v :
  int_mul (y_sign key) (int_mul (y_sign key) v) = v.
Proof. by rewrite int_mul_mul, y_sign_square, int_mul_1. Qed.

(** Solves the goal [f (g H) !! key = ...] once the lookups of the
    operations are unfolded: the case of a term of [H], and the case of the
    identity key that the zero operator brings. *)
Ltac by_terms H key :=
  repeat first [ rewrite conjugate_lookup | rewrite transpose_lookup
               | rewrite dagger_lookup | rewrite union_zero_lookup ];
  destruct (H !! key) as [?|]; cbv beta iota;
  [ | repeat rewrite init_zero_lookup; case_decide; cbv beta iota ];
  rewrite ?int_mul_conjugate, ?int_mul_y_sign_twice, ?c_conjugate_involutive,
          ?int_mul_zero, ?c_conjugate_zero, ?int_mul_zero,
          ?int_mul_y_sign_twice;
  try done.

(** X1: each of [conjugate], [transpose] and [dagger], applied twice, gives
    the operator back, over the zero operator. *)
Theorem twice_is_identity_over_zero (H : QubitHamiltonian) :
  conjugate (conjugate H) = H ∪ init_zero ∧
  transpose (transpose H) = H ∪ init_zero ∧
  dagger (dagger H) = H ∪ init_zero.
Proof.
  split; [|split]; apply map_eq; intros key; by_terms H key.
Qed.

(** X2: any two of the three operations compose to the third, in either
    order. *)
Theorem two_compose_to_third (H : QubitHamiltonian) :
  dagger H = transpose (conjugate H) ∧ dagger H = conjugate (transpose H) ∧
  transpose H = dagger (conjugate H) ∧ transpose H = conjugate (dagger H).
Proof.
  repeat split; apply map_eq; intros key; by_terms H key.
Qed.

(** X3: the three operations keep every key of the operator and add the
    identity key, nothing else. *)
Theorem keys_preserved (H : QubitHamiltonian) :
  dom (conjugate H) = dom H ∪ {[ [] ]} ∧
  dom (transpose H) = dom H ∪ {[ [] ]} ∧
  dom (dagger H) = dom H ∪ {[ [] ]}.
Proof.
  repeat split; apply set_eq; intros key;
    rewrite elem_of_union, elem_of_singleton, !elem_of_dom;
    rewrite ?conjugate_lookup, ?transpose_lookup, ?dagger_lookup;
    destruct (H !! key) as [v|] eqn:Hk.
  all: try (split; [intros _; left; by eexists|intros _; by eexists]).
  all: rewrite init_zero_lookup; case_decide; split.
  all: try (intros _; by right).
  all: try (intros _; by eexists).
  all: try (by intros [? ?]).
  all: intros [[? ?]|?]; done.
Qed.

(** X4: [transpose] leaves the coefficient of a key with an even number of Y
    factors as it is and negates that of a key with an odd number. *)
Theorem transpose_parity (H : QubitHamiltonian) key value :
  H !! key = Some value →
  transpose H !! key
  = Some (if Nat.even (count_y key) then value else int_mul (-1) value).
Proof.
  intros Hk. rewrite transpose_lookup, Hk, y_sign_count. f_equal.
  destruct (Nat.even (count_y key)) eqn:Hev.
  - apply Nat.even_spec in Hev as [n ->].
    rewrite Nat2Z.inj_mul, Z.pow_mul_r by lia. change ((-1) ^ Z.of_nat 2) with 1.
    rewrite Z.pow_1_l by lia. apply int_mul_1.
  - assert (Nat.odd (count_y key) = true) as Hodd
      by (by rewrite <-Nat.negb_even, Hev).
    apply Nat.odd_spec in Hodd as [n ->].
    rewrite Nat2Z.inj_add, Nat2Z.inj_mul, Z.pow_add_r, Z.pow_mul_r by lia.
    change ((-1) ^ Z.of_nat 2) with 1. rewrite Z.pow_1_l by lia. done.
Qed.

Lemma transpose_parity_X0Y1 :
  X0Y1 !! [(0%nat, PauliX); (1%nat, PauliY)] = Some c_one ∧
  transpose X0Y1 !! [(0%nat, PauliX); (1%nat, PauliY)]
  = Some (if Nat.even (count_y [(0%nat, PauliX); (1%nat, PauliY)])
          then c_one else int_mul (-1) c_one).
Proof.
  split.
  - apply lookup_singleton_eq.
  - apply transpose_parity. apply lookup_singleton_eq.
Defined.

(** ** Hermiticity *)

Lemma is_hermitian_true (H : QubitHamiltonian) :
  is_hermitian H = true ↔ ∀ key v, H !! key = Some v → imag v = 0%Qc.
Proof.
  unfold is_hermitian. rewrite all_imag_zero_Forall, Forall_forall. split.
  - intros Hall key v Hk. apply Hall, elem_of_values. eauto.
  - intros Hall v [key Hk]%elem_of_values. eauto.
Qed.

Lemma is_antihermitian_true (H : QubitHamiltonian) :
  is_antihermitian H = true ↔ ∀ key v, H !! key = Some v → real v = 0%Qc.
Proof.
  unfold is_antihermitian. rewrite all_real_zero_Forall, Forall_forall. split.
  - intros Hall key v Hk. apply Hall, elem_of_values. eauto.
  - intros Hall v [key Hk]%elem_of_values. eauto.
Qed.

Lemma bool_eq_true_iff (a b : bool) : (a = true ↔ b = true) → a = b.
Proof. destruct a, b; intros [? ?]; auto; symmetry; auto. Qed.

Lemma imag_int_mul_y_sign key v :
  imag (int_mul (y_sign key) v) = 0%Qc ↔ imag v = 0%Qc.
Proof.
  assert (∀ s w, imag w = 0%Qc → imag (int_mul s w) = 0%Qc) as Hz.
  { intros s [r i]; cbn [int_mul imag real]. intros ->. ring. }
  split; [|apply Hz]. intros Hi.
  rewrite <-(int_mul_y_sign_twice key v). by apply Hz.
Qed.

Lemma real_int_mul_y_sign key v :
  real (int_mul (y_sign key) v) = 0%Qc ↔ real v = 0%Qc.
Proof.
  assert (∀ s w, real w = 0%Qc → real (int_mul s w) = 0%Qc) as Hz.
  { intros s [r i]; cbn [int_mul imag real]. intros ->. ring. }
  split; [|apply Hz]. intros Hi.
  rewrite <-(int_mul_y_sign_twice key v). by apply Hz.
Qed.

Lemma imag_c_conjugate v : imag (c_conjugate v) = 0%Qc ↔ imag v = 0%Qc.
Proof.
  destruct v as [r i]; cbn [c_conjugate imag]. split; [|by intros ->].
  intros Hi. rewrite <-(Qcopp_involutive i), Hi. done.
Qed.

Lemma real_c_conjugate v : real (c_conjugate v) = real v.
Proof. by destruct v. Qed.

(** An operation that maps every coefficient by [g key], over the zero
    operator, keeps a test on the coefficients that [g key] keeps and that
    zero passes. *)
Lemma termwise_test (P : complex → Prop) (g : term_key → complex → complex)
    (H H' : QubitHamiltonian) :
  (∀ key, H' !! key = match H !! key with
                      | Some v => Some (g key v)
                      | None => init_zero !! key
                      end) →
  (∀ key v, P (g key v) ↔ P v) → P c_zero →
  (∀ key v, H' !! key = Some v → P v) ↔ (∀ key v, H !! key = Some v → P v).
Proof.
  intros Hlook Hg H0. split.
  - intros Hall key v Hk. apply (Hg key), (Hall key). by rewrite Hlook, Hk.
  - intros Hall key v'. rewrite Hlook. destruct (H !! key) as [v|] eqn:Hk.
    + intros [= <-]. apply Hg. eauto.
    + rewrite init_zero_lookup. case_decide; [|done]. by intros [= <-].
Qed.

(** X5: [conjugate], [transpose] and [dagger] keep an operator hermitian or
    not, and antihermitian or not. *)
Theorem hermiticity_preserved (H : QubitHamiltonian) :
  (is_hermitian (conjugate H) = is_hermitian H ∧
   is_hermitian (transpose H) = is_hermitian H ∧
   is_hermitian (dagger H) = is_hermitian H) ∧
  (is_antihermitian (conjugate H) = is_antihermitian H ∧
   is_antihermitian (transpose H) = is_antihermitian H ∧
   is_antihermitian (dagger H) = is_antihermitian H).
Proof.
  repeat split; apply bool_eq_true_iff;
    rewrite ?is_hermitian_true, ?is_antihermitian_true.
  - apply (termwise_test (λ v, imag v = 0%Qc)
             (λ key v, int_mul (y_sign key) (c_conjugate v)));
      [apply conjugate_lookup| |done].
    intros key v. by rewrite imag_int_mul_y_sign, imag_c_conjugate.
  - apply (termwise_test (λ v, imag v = 0%Qc)
             (λ key v, int_mul (y_sign key) v));
      [apply transpose_lookup| |done].
    intros key v. by rewrite imag_int_mul_y_sign.
  - apply (termwise_test (λ v, imag v = 0%Qc) (λ key v, c_conjugate v));
      [apply dagger_lookup| |done].
    intros key v. by rewrite imag_c_conjugate.
  - apply (termwise_test (λ v, real v = 0%Qc)
             (λ key v, int_mul (y_sign key) (c_conjugate v)));
      [apply conjugate_lookup| |done].
    intros key v. by rewrite real_int_mul_y_sign, real_c_conjugate.
  - apply (termwise_test (λ v, real v = 0%Qc)
             (λ key v, int_mul (y_sign key) v));
      [apply transpose_lookup| |done].
    intros key v. by rewrite real_int_mul_y_sign.
  - apply (termwise_test (λ v, real v = 0%Qc) (λ key v, c_conjugate v));
      [apply dagger_lookup| |done].
    intros key v. by rewrite real_c_conjugate.
Qed.

Lemma c_conjugate_fixed v : c_conjugate v = v ↔ imag v = 0%Qc.
Proof.
  destruct v as [r i]; cbn [c_conjugate imag real]. split.
  - intros [= Hi].
    assert (((1 + 1) * i)%Qc = 0%Qc) as H2.
    { replace ((1 + 1) * i)%Qc with (i - - i)%Qc by ring. rewrite Hi. ring. }
    apply Qcmult_integral in H2 as [H2|H2]; [|done].
    vm_compute in H2. discriminate H2.
  - intros ->. done.
Qed.

(** X6: an operator is hermitian exactly when [dagger] gives it back, over
    the zero operator. *)
Theorem hermitian_iff_dagger_fixed (H : QubitHamiltonian) :
  is_hermitian H = true ↔ dagger H = H ∪ init_zero.
Proof.
  rewrite is_hermitian_true. split.
  - intros Hall. apply map_eq; intros key.
    rewrite dagger_lookup, union_zero_lookup.
    destruct (H !! key) as [v|] eqn:Hk; [|done].
    f_equal. apply c_conjugate_fixed. eauto.
  - intros Heq key v Hk. apply c_conjugate_fixed.
    apply (f_equal (.!! key)) in Heq.
    rewrite dagger_lookup, union_zero_lookup, Hk in Heq. congruence.
Qed.

(** X7: an operator is hermitian and antihermitian at once exactly when all
    its coefficients are zero. *)
Theorem hermitian_and_antihermitian (H : QubitHamiltonian) :
  is_hermitian H && is_antihermitian H = true
  ↔ ∀ key v, H !! key = Some v → v = c_zero.
Proof.
  rewrite andb_true_iff, is_hermitian_true, is_antihermitian_true. split.
  - intros [Hi Hr] key [r i] Hk.
    specialize (Hi _ _ Hk). specialize (Hr _ _ Hk). cbn in Hi, Hr.
    by subst.
  - intros Hall. split; intros key v Hk; by rewrite (Hall _ _ Hk).
Qed.

(** ** [n_qubits], errors *)

(** X8: [n_qubits] raises [ValueError] exactly when the operator has the
    identity term; it raises nothing else, and what it returns is at least
    1. *)
Theorem n_qubits_raises_iff (H : QubitHamiltonian) :
  (n_qubits H = Raise ValueError ↔ is_Some (H !! [])) ∧
  n_qubits H ≠ Raise TypeError ∧
  (∀ n, n_qubits H = Ok n → (1 ≤ n)%nat).
Proof.
  destruct (H !! []) as [v|] eqn:Hid.
  - rewrite n_qubits_identity_raises by (rewrite Hid; by eexists).
    split; [split; [by eexists|done]|]. split; [done|]. by intros n.
  - destruct (n_qubits_no_identity H Hid) as (m & -> & _).
    split; [split; [done|by intros [? ?]]|]. split; [done|].
    intros n [= <-]. lia.
Qed.

(** X9: the results of [conjugate], [transpose] and [dagger] have the
    identity term, so [n_qubits] raises [ValueError] on all of them. *)
Theorem n_qubits_after_operation (H : QubitHamiltonian) :
  n_qubits (conjugate H) = Raise ValueError ∧
  n_qubits (transpose H) = Raise ValueError ∧
  n_qubits (dagger H) = Raise ValueError.
Proof.
  repeat split; apply n_qubits_identity_raises.
  - rewrite conjugate_lookup. destruct (H !! []); [by eexists|].
    rewrite init_zero_lookup. by eexists.
  - rewrite transpose_lookup. destruct (H !! []); [by eexists|].
    rewrite init_zero_lookup. by eexists.
  - rewrite dagger_lookup. destruct (H !! []); [by eexists|].
    rewrite init_zero_lookup. by eexists.
Qed.

(** ** [PauliString], keys and dictionaries *)

Section pydict_more.
Context {K V : Type} `{!EqDecision K, !EqDecision V}.
Implicit Types d : list (K * V).

Lemma dict_get_set k v d q :
  dict_get (dict_set k v d) q = if decide (k = q) then Some v else dict_get d q.
Proof.
  induction d as [|[k' v'] d IH]; simpl.
  - by repeat case_decide.
  - destruct (decide (k' = k)) as [->|Hne]; simpl.
    + by repeat case_decide.
    + rewrite IH. repeat case_decide; congruence.
Qed.

Lemma dict_set_wf k v d : dict_wf d → dict_wf (dict_set k v d).
Proof.
  unfold dict_wf. induction d as [|[k' v'] d IH]; simpl; intros Hwf.
  - apply NoDup_singleton.
  - case_decide; [done|]. simpl.
    apply NoDup_cons in Hwf as [Hk' Hwf]. apply NoDup_cons. split; [|auto].
    clear IH Hwf. induction d as [|[k2 v2] d IH]; simpl in *.
    + apply not_elem_of_cons. split; [done|apply not_elem_of_nil].
    + apply not_elem_of_cons in Hk' as [? ?].
      case_decide; simpl; apply not_elem_of_cons; auto.
Qed.

Lemma dict_get_app d1 d2 q :
  dict_get (d1 ++ d2) q
  = match dict_get d1 q with Some v => Some v | None => dict_get d2 q end.
Proof.
  induction d1 as [|[k v] d1 IH]; simpl; [done|]. by case_decide.
Qed.

Lemma fold_dict_set_wf (key : list (K * V)) d :
  dict_wf d → dict_wf (fold_left (λ data term, dict_set term.1 term.2 data) key d).
Proof.
  revert d; induction key as [|[k v] key IH]; intros d Hd; simpl; [done|].
  by apply IH, dict_set_wf.
Qed.

Lemma fold_dict_set_get (key : list (K * V)) d q :
  dict_get (fold_left (λ data term, dict_set term.1 term.2 data) key d) q
  = match dict_get (reverse key) q with
    | Some v => Some v
    | None => dict_get d q
    end.
Proof.
  revert d; induction key as [|[k v] key IH]; intros d; simpl; [done|].
  rewrite IH, reverse_cons, dict_get_app, dict_get_set. simpl.
  destruct (dict_get (reverse key) q); [done|]. by case_decide.
Qed.

Lemma fold_dict_set_fresh (key : list (K * V)) d :
  NoDup (d ++ key).*1 →
  fold_left (λ data term, dict_set term.1 term.2 data) key d = d ++ key.
Proof.
  revert d; induction key as [|[k v] key IH]; intros d Hnd; simpl.
  - by rewrite app_nil_r.
  - rewrite dict_set_keys.
    + rewrite IH; [by rewrite <-app_assoc|]. by rewrite <-app_assoc.
    + rewrite fmap_app in Hnd. apply NoDup_app in Hnd as (_ & Hdis & _).
      intros Hin. apply (Hdis k Hin). left.
Qed.
End pydict_more.

(** X10: a key with one factor per qubit comes back from
    [init_from_openfermion] and [key_openfermion] as it was, and a
    [PauliString] comes back from [key_openfermion] and
    [init_from_openfermion] as it was. *)
Theorem PauliString_key_roundtrip :
  (∀ key c, NoDup key.*1 →
     key_openfermion (init_from_openfermion key c) = key) ∧
  (∀ ps, dict_wf (_data ps) →
     init_from_openfermion (key_openfermion ps) (_coeff ps) = ps).
Proof.
  split.
  - intros key c Hnd. rewrite key_openfermion_data.
    unfold init_from_openfermion, PauliString_init. cbn [_data].
    by apply (fold_dict_set_fresh key []).
  - intros [d c] Hwf. rewrite key_openfermion_data.
    unfold init_from_openfermion, PauliString_init. cbn [_data _coeff].
    f_equal. by apply (fold_dict_set_fresh d []).
Qed.

Lemma PauliString_key_roundtrip_X0Y1 :
  NoDup [(0%nat, PauliX); (1%nat, PauliY)].*1 ∧
  key_openfermion (init_from_openfermion [(0%nat, PauliX); (1%nat, PauliY)] None)
  = [(0%nat, PauliX); (1%nat, PauliY)].
Proof.
  assert (NoDup [(0%nat, PauliX); (1%nat, PauliY)].*1) as Hnd
    by (apply (bool_decide_unpack _); vm_compute; exact I).
  split; [exact Hnd|]. exact (proj1 PauliString_key_roundtrip _ None Hnd).
Defined.

Lemma init_from_openfermion_get (key : term_key) c q :
  dict_get (_data (init_from_openfermion key c)) q = dict_get (reverse key) q.
Proof.
  unfold init_from_openfermion, PauliString_init. cbn [_data].
  rewrite fold_dict_set_get. by destruct (dict_get (reverse key) q).
Qed.

(** X11: whatever the key, [init_from_openfermion] builds a dictionary that
    holds each qubit once, with the axis of the last factor of the key on
    that qubit, and stores the coefficient it is given. *)
Theorem init_from_openfermion_last_factor (key : term_key) c :
  dict_wf (_data (init_from_openfermion key c)) ∧
  (∀ q, dict_get (_data (init_from_openfermion key c)) q
        = dict_get (reverse key) q) ∧
  _coeff (init_from_openfermion key c) = c.
Proof.
  split; [|split; [apply init_from_openfermion_get|done]].
  unfold init_from_openfermion, PauliString_init. cbn [_data].
  apply fold_dict_set_wf. apply NoDup_nil_2.
Qed.

(** X12: on dictionaries that hold each key once, [==] of [PauliString]s is
    reflexive, symmetric and transitive. *)
Theorem PauliString_eq_equivalence (a b c : PauliString) :
  dict_wf (_data a) → dict_wf (_data b) → dict_wf (_data c) →
  PauliString_eq a a = true ∧
  PauliString_eq a b = PauliString_eq b a ∧
  (PauliString_eq a b = true → PauliString_eq b c = true →
   PauliString_eq a c = true).
Proof.
  intros Ha Hb Hc. unfold PauliString_eq. split; [|split].
  - by apply dict_eqb_lookups.
  - apply bool_eq_true_iff. rewrite !dict_eqb_lookups by done.
    split; intros Heq q; by rewrite Heq.
  - rewrite !dict_eqb_lookups by done. intros Hab Hbc q.
    by rewrite Hab, Hbc.
Qed.

Lemma PauliString_eq_equivalence_X0Y1 :
  dict_wf (_data ps_X0Y1) ∧ dict_wf (_data ps_Y1X0) ∧
  PauliString_eq ps_X0Y1 ps_X0Y1 = true ∧
  PauliString_eq ps_X0Y1 ps_Y1X0 = PauliString_eq ps_Y1X0 ps_X0Y1 ∧
  (PauliString_eq ps_X0Y1 ps_Y1X0 = true →
   PauliString_eq ps_Y1X0 ps_X0Y1 = true →
   PauliString_eq ps_X0Y1 ps_X0Y1 = true).
Proof.
  assert (dict_wf (_data ps_X0Y1)) as Ha
    by (apply (bool_decide_unpack _); vm_compute; exact I).
  assert (dict_wf (_data ps_Y1X0)) as Hb
    by (apply (bool_decide_unpack _); vm_compute; exact I).
  split; [exact Ha|]. split; [exact Hb|].
  exact (PauliString_eq_equivalence ps_X0Y1 ps_Y1X0 ps_X0Y1 Ha Hb Ha).
Defined.

(** ** The getter of [paulistrings] and the constructors *)

(** X13: [paulistrings] has one entry per term of the operator; the entry of a
    term holds its coefficient, and its key when the key has one factor per
    qubit. *)
Theorem paulistrings_terms (H : QubitHamiltonian) :
  length (paulistrings H) = size H ∧
  (∀ key v, H !! key = Some v →
     ∃ ps, ps ∈ paulistrings H ∧ coeff ps = v ∧
           (NoDup key.*1 → key_openfermion ps = key)) ∧
  (∀ ps, ps ∈ paulistrings H →
     ∃ key, H !! key = Some (coeff ps) ∧
            ∀ q, dict_get (_data ps) q = dict_get (reverse key) q).
Proof.
  unfold paulistrings. split; [|split].
  - by rewrite length_fmap, length_map_to_list.
  - intros key v Hk. exists (init_from_openfermion key (Some v)).
    split; [|split; [done|]].
    + apply list_elem_of_fmap. exists (key, v). split; [done|].
      by apply elem_of_map_to_list.
    + apply key_openfermion_init_from_openfermion.
  - intros ps [[key v] [-> Hin]]%list_elem_of_fmap.
    apply elem_of_map_to_list in Hin. exists key. split; [done|].
    apply init_from_openfermion_get.
Qed.

Lemma ascii_upper_lower c : ascii_upper (ascii_lower c) = ascii_upper c.
Proof. destruct c as [[] [] [] [] [] [] [] []]; reflexivity. Qed.

Lemma ascii_upper_upper c : ascii_upper (ascii_upper c) = ascii_upper c.
Proof. destruct c as [[] [] [] [] [] [] [] []]; reflexivity. Qed.

Lemma ascii_lower_upper c : ascii_lower (ascii_upper c) = ascii_lower c.
Proof. destruct c as [[] [] [] [] [] [] [] []]; reflexivity. Qed.

Lemma ascii_lower_lower c : ascii_lower (ascii_lower c) = ascii_lower c.
Proof. destruct c as [[] [] [] [] [] [] [] []]; reflexivity. Qed.

Lemma str_map_map f g s : str_map f (str_map g s) = str_map (λ c, f (g c)) s.
Proof. induction s as [|c s IH]; simpl; [done|by rewrite IH]. Qed.

Lemma str_map_ext f g s : (∀ c, f c = g c) → str_map f s = str_map g s.
Proof. intros Hfg. induction s as [|c s IH]; simpl; [done|by rewrite IH, Hfg]. Qed.

Lemma upper_lower s : upper (lower s) = upper s.
Proof.
  unfold upper, lower. rewrite str_map_map.
  apply str_map_ext, ascii_upper_lower.
Qed.

Lemma upper_upper s : upper (upper s) = upper s.
Proof.
  unfold upper. rewrite str_map_map. apply str_map_ext, ascii_upper_upper.
Qed.

Lemma lower_upper s : lower (upper s) = lower s.
Proof.
  unfold upper, lower. rewrite str_map_map.
  apply str_map_ext, ascii_lower_upper.
Qed.

Lemma lower_lower s : lower (lower s) = lower s.
Proof.
  unfold lower. rewrite str_map_map. apply str_map_ext, ascii_lower_lower.
Qed.

(** X14: [init_from_string] does not tell small letters from capitals. *)
Theorem init_from_string_case (s : string) :
  init_from_string (lower s) = init_from_string s ∧
  init_from_string (upper s) = init_from_string s.
Proof.
  unfold init_from_string. by rewrite upper_lower, upper_upper.
Qed.

Lemma key_sorted_NoDup (key : term_key) : key_sorted key → NoDup key.*1.
Proof.
  intros Hs. apply NoDup_alt. intros i j q Hi Hj.
  rewrite list_lookup_fmap in Hi, Hj.
  destruct (key !! i) as [a|] eqn:Ha; [|done].
  destruct (key !! j) as [b|] eqn:Hb; [|done].
  simpl in Hi, Hj. injection Hi as <-. injection Hj as Hba.
  destruct (Nat.lt_trichotomy i j) as [Hlt|[->|Hlt]]; [|done|].
  - pose proof (Hs i j a b Hlt Ha Hb). lia.
  - pose proof (Hs j i b a Hlt Hb Ha). lia.
Qed.

(** X15: for a key with increasing qubit indices, [init_from_paulistring]
    makes of the [PauliString] that [init_from_openfermion] builds the
    operator with that one term. *)
Theorem init_from_paulistring_term (key : term_key) (v : complex) :
  key_sorted key →
  init_from_paulistring (init_from_openfermion key (Some v))
  = Ok (QubitOperator_term key v).
Proof.
  intros Hs. unfold init_from_paulistring.
  rewrite key_openfermion_init_from_openfermion by by apply key_sorted_NoDup.
  reflexivity.
Qed.

Lemma init_from_paulistring_term_X0Y1 :
  key_sorted [(0%nat, PauliX); (1%nat, PauliY)] ∧
  init_from_paulistring
    (init_from_openfermion [(0%nat, PauliX); (1%nat, PauliY)] (Some c_one))
  = Ok X0Y1.
Proof.
  assert (key_sorted [(0%nat, PauliX); (1%nat, PauliY)]) as Hs.
  { intros [|[|i]] [|[|j]] a b Hij Ha Hb; simplify_eq/=; lia. }
  split; [exact Hs|]. exact (init_from_paulistring_term _ c_one Hs).
Defined.

(** * Properties of [hamiltonian_qc.py] *)

Section qc_facts.
Import ParametersQC.

(** ** [format_element_name] *)

Lemma str_map_length f s : String.length (str_map f s) = String.length s.
Proof. induction s as [|c s IH]; simpl; [done|by rewrite IH]. Qed.

Lemma ascii_upper_is_ascii c :
  (nat_of_ascii c < 128)%nat → (nat_of_ascii (ascii_upper c) < 128)%nat.
Proof. destruct c as [[] [] [] [] [] [] [] []]; vm_compute; lia. Qed.

Lemma ascii_lower_is_ascii c :
  (nat_of_ascii c < 128)%nat → (nat_of_ascii (ascii_lower c) < 128)%nat.
Proof. destruct c as [[] [] [] [] [] [] [] []]; vm_compute; lia. Qed.

Lemma lower_is_ascii s : is_ascii s → is_ascii (lower s).
Proof.
  unfold is_ascii, lower. induction s as [|c s IH]; simpl; [done|].
  rewrite !Forall_cons. intros [Hc Hs].
  split; [by apply ascii_lower_is_ascii|by apply IH].
Qed.

(** X16: on ASCII text, [format_element_name] fails exactly on the empty
    string; what it returns is ASCII text as long as its argument and comes
    back unchanged when it is formatted again. *)
Theorem format_element_name_idempotent (s : string) :
  is_ascii s →
  (format_element_name s = Throw AssertionError ↔ s = EmptyString) ∧
  (∀ r, format_element_name s = Return r →
        String.length r = String.length s ∧ is_ascii r ∧
        format_element_name r = Return r).
Proof.
  intros Hs. destruct s as [|c s]; simpl.
  - split; [done|]. by intros r.
  - split; [split; discriminate|]. intros r [= <-]. simpl.
    unfold is_ascii in Hs. simpl in Hs. apply Forall_cons in Hs as [Hc Hs].
    split; [|split].
    + unfold lower. by rewrite str_map_length.
    + unfold is_ascii. simpl. apply Forall_cons.
      split; [by apply ascii_upper_is_ascii|by apply lower_is_ascii].
    + by rewrite ascii_upper_upper, lower_lower.
Qed.

Lemma format_element_name_idempotent_lI :
  is_ascii "lI" ∧
  (format_element_name "lI" = Throw AssertionError ↔ "lI" = EmptyString) ∧
  (∀ r, format_element_name "lI" = Return r →
        String.length r = String.length "lI" ∧ is_ascii r ∧
        format_element_name r = Return r).
Proof.
  assert (is_ascii "lI") as Hs
    by (repeat constructor; vm_compute; lia).
  split; [exact Hs|]. exact (format_element_name_idempotent "lI" Hs).
Defined.

(** X17: [format_element_name] gives the same name for every spelling of it
    in small letters and capitals. *)
Theorem format_element_name_case (s : string) :
  format_element_name (lower s) = format_element_name s ∧
  format_element_name (upper s) = format_element_name s.
Proof.
  destruct s as [|c s]; [done|].
  cbn [lower upper str_map format_element_name]. fold (lower s) (upper s).
  by rewrite ascii_upper_lower, ascii_upper_upper, lower_lower, lower_upper.
Qed.

(** ** [str.split] *)



Lemma split_at_from_app sep piece a b :
  split_at_from sep piece (a +:+ String sep b)
  = split_at_from sep piece a ++ split_at sep b.
Proof.
  revert piece; induction a as [|c a IH]; intros piece; simpl.
  - by rewrite Ascii.eqb_refl.
  - destruct (Ascii.eqb c sep); simpl; by rewrite IH.
Qed.

Lemma split_at_app sep a b :
  split_at sep (a +:+ String sep b) = split_at sep a ++ split_at sep b.
Proof. apply split_at_from_app. Qed.

Lemma split_at_from_no_sep sep piece s :
  sep ∉ list_ascii_of_string s →
  split_at_from sep piece s
  = [string_of_rev (rev (list_ascii_of_string s) ++ piece)].
Proof.
  revert piece; induction s as [|c s IH]; intros piece; simpl; [done|].
  intros [Hne Hs]%not_elem_of_cons.
  destruct (Ascii.eqb_spec c sep) as [->|_]; [done|].
  rewrite IH by done. by rewrite <-app_assoc.
Qed.

Lemma split_at_no_sep sep s :
  sep ∉ list_ascii_of_string s → split_at sep s = [s].
Proof.
  intros Hs. unfold split_at. rewrite split_at_from_no_sep by done.
  unfold string_of_rev. rewrite app_nil_r, rev_involutive.
  by rewrite string_of_list_ascii_of_string.
Qed.

(** ** [convert_to_list] *)

Section convert_facts.
Context {F : Type} (float64 : string → option F).

(** The lines after the first line that has not four words play no part. *)
Lemma convert_lines_stops (pre : list string) bad post result printed :
  length (split_whitespace bad) ≠ 4%nat →
  convert_lines float64 (pre ++ bad :: post) result printed
  = convert_lines float64 pre result printed.
Proof.
  intros Hbad. revert result printed.
  induction pre as [|line pre IH]; intros result printed.
  - simpl. destruct (split_whitespace bad) as [|? [|? [|? [|? [|? ?]]]]]; done.
  - cbn [app convert_lines].
    destruct (split_whitespace line) as [|w0 [|w1 [|w2 [|w3 [|? ?]]]]]; try done.
    destruct (format_element_name w0); [|done]. cbn [mbind outcome_bind].
    destruct (float64 w1), (float64 w2), (float64 w3); apply IH.
Qed.

(** X18: a line that has not exactly four words ends the geometry: the text
    after it is ignored, be the line the first, one in the middle or the
    last. *)
Theorem convert_to_list_stops (pre bad post : string) :
  newline ∉ list_ascii_of_string bad →
  length (split_whitespace bad) ≠ 4%nat →
  convert_to_list float64 (bad +:+ String newline post) = Return ([], []) ∧
  convert_to_list float64 (pre +:+ String newline bad)
  = convert_to_list float64 pre ∧
  convert_to_list float64 (pre +:+ String newline (bad +:+ String newline post))
  = convert_to_list float64 pre.
Proof.
  intros Hnl Hbad. unfold convert_to_list. split; [|split].
  - rewrite split_at_app, (split_at_no_sep newline bad Hnl).
    apply (convert_lines_stops [] bad _ [] [] Hbad).
  - rewrite split_at_app, (split_at_no_sep newline bad Hnl).
    rewrite (convert_lines_stops _ bad [] [] [] Hbad). done.
  - rewrite !split_at_app, (split_at_no_sep newline bad Hnl). cbn [app].
    rewrite (convert_lines_stops _ bad _ [] [] Hbad). done.
Qed.


End convert_facts.

Lemma convert_to_list_stops_blank :
  (newline ∉ list_ascii_of_string EmptyString) ∧
  (length (split_whitespace EmptyString) ≠ 4%nat) ∧
  convert_to_list sample_float64
    (EmptyString +:+ String newline "h 0 0 1") = Return ([], []) ∧
  convert_to_list sample_float64
    ("h 0 0 0" +:+ String newline EmptyString)
  = convert_to_list sample_float64 "h 0 0 0" ∧
  convert_to_list sample_float64
    ("h 0 0 0" +:+ String newline (EmptyString +:+ String newline "h 0 0 1"))
  = convert_to_list sample_float64 "h 0 0 0".
Proof.
  assert (newline ∉ list_ascii_of_string EmptyString) as Hnl
    by apply not_elem_of_nil.
  assert (length (split_whitespace EmptyString) ≠ 4%nat) as Hbad
    by (simpl; lia).
  split; [exact Hnl|]. split; [exact Hbad|].
  exact (convert_to_list_stops sample_float64
           "h 0 0 0" EmptyString "h 0 0 1" Hnl Hbad).
Defined.

(** ** [read_xyz_from_file] *)

Lemma append_cons (x : ascii) (a b : string) :
  String x a +:+ b = String x (a +:+ b).
Proof. reflexivity. Qed.

Lemma append_assoc (a b c : string) : (a +:+ b) +:+ c = a +:+ b +:+ c.
Proof.
  induction a as [|x a IH]; [done|]. by rewrite !append_cons, IH.
Qed.

Lemma append_empty_r (a : string) : a +:+ EmptyString = a.
Proof. induction a as [|x a IH]; [done|]. by rewrite append_cons, IH. Qed.

(** The loop over [range(natoms)], from the line [2 + k] on. *)
Lemma read_xyz_loop (content : list string) (n k : nat) (coord : string) :
  fold_left (read_xyz_step content) (seq k n) (Return coord)
  = if decide (n = 0 ∨ 2 + k + n ≤ length content)%nat
    then Return (coord +:+
                 foldr String.append EmptyString (take n (drop (2 + k) content)))
    else Throw IndexError.
Proof.
  revert k coord; induction n as [|n IH]; intros k coord.
  - cbn [seq fold_left take foldr]. rewrite append_empty_r.
    case_decide as Hn; [done|]. exfalso. apply Hn. by left.
  - cbn [seq fold_left].
    assert (read_xyz_step content (Return coord) k
            = match content !! (2 + k)%nat with
              | Some line => Return (coord +:+ line)
              | None => Throw IndexError
              end) as ->.
    { unfold read_xyz_step, item. cbn [mbind outcome_bind].
      by destruct (content !! (2 + k)%nat). }
    destruct (content !! (2 + k)%nat) as [line|] eqn:Hline.
    + rewrite IH. apply lookup_lt_Some in Hline as Hlt.
      rewrite (drop_S _ line (2 + k)) by done. cbn [take foldr].
      rewrite append_assoc.
      replace (2 + S k)%nat with (S (2 + k)) by lia.
      repeat case_decide; try done; exfalso; lia.
    + apply lookup_ge_None in Hline.
      assert (∀ l, fold_left (read_xyz_step content) l (Throw IndexError)
                   = Throw IndexError) as Hthrow.
      { induction l as [|i l IHl]; [done|apply IHl]. }
      rewrite Hthrow. clear IH Hthrow.
      destruct (decide (S n = 0 ∨ 2 + k + S n ≤ length content)%nat);
        [exfalso; lia|done].
Qed.

Section read_xyz_facts.
Context (int : string → option Z).

(** X20: from a file whose first line reads as [natoms] and which has the
    comment line and [natoms] more lines, [read_xyz_from_file] returns these
    [natoms] lines put together and the comment; the lines after them play
    no part. *)
Theorem read_xyz_from_file_lines (first comment : string)
    (atoms rest : list string) (natoms : Z) :
  int first = Some natoms →
  length atoms = Z.to_nat natoms →
  read_xyz_from_file int (first :: comment :: atoms ++ rest)
  = Return (foldr String.append EmptyString atoms, comment).
Proof.
  intros Hint Hlen. unfold read_xyz_from_file, item.
  cbn [lookup list_lookup mbind outcome_bind]. rewrite Hint.
  cbn [mbind outcome_bind]. rewrite read_xyz_loop.
  case_decide as Hle.
  - cbn [drop mbind outcome_bind String.append Nat.add].
    by rewrite drop_0, <-Hlen, take_app_length.
  - exfalso. apply Hle. right. cbn [length]. rewrite length_app. lia.
Qed.

(** X21: [read_xyz_from_file] raises [IndexError] on a file without lines and
    on a file with fewer than two lines more than its first line counts,
    and [ValueError] when the first line is no integer. *)
Theorem read_xyz_from_file_errors (content : list string) :
  (content = [] → read_xyz_from_file int content = Throw IndexError) ∧
  (∀ first, content !! 0%nat = Some first → int first = None →
     read_xyz_from_file int content = Throw ValueError) ∧
  (∀ first natoms, content !! 0%nat = Some first → int first = Some natoms →
     (length content < 2 + Z.to_nat natoms)%nat →
     read_xyz_from_file int content = Throw IndexError).
Proof.
  split; [by intros ->|]. split.
  - intros first H0 Hint. unfold read_xyz_from_file, item.
    rewrite H0. cbn [mbind outcome_bind]. by rewrite Hint.
  - intros first natoms H0 Hint Hlen. unfold read_xyz_from_file, item.
    rewrite H0. cbn [mbind outcome_bind]. rewrite Hint.
    cbn [mbind outcome_bind].
    destruct (content !! 1%nat) as [comment|] eqn:H1; [|done].
    cbn [mbind outcome_bind]. rewrite read_xyz_loop.
    apply lookup_lt_Some in H1.
    case_decide as Hn; [exfalso; lia|done].
Qed.
End read_xyz_facts.

Lemma read_xyz_from_file_lines_sample :
  sample_int "2" = Some 2 ∧
  length ["h 0 0 0"; "h 0 0 1"] = Z.to_nat 2 ∧
  read_xyz_from_file sample_int
    ("2" :: "comment" :: ["h 0 0 0"; "h 0 0 1"] ++ ["more"])
  = Return (foldr String.append EmptyString ["h 0 0 0"; "h 0 0 1"], "comment").
Proof.
  assert (sample_int "2" = Some 2) as Hint by reflexivity.
  assert (length ["h 0 0 0"; "h 0 0 1"] = Z.to_nat 2) as Hlen by reflexivity.
  split; [exact Hint|]. split; [exact Hlen|].
  exact (read_xyz_from_file_lines sample_int "2" "comment"
           ["h 0 0 0"; "h 0 0 1"] ["more"] 2 Hint Hlen).
Defined.

Lemma read_xyz_from_file_errors_sample :
  ["3"; "comment"; "h 0 0 0"] !! 0%nat = Some "3" ∧
  sample_int "3" = Some 3 ∧
  (length ["3"; "comment"; "h 0 0 0"] < 2 + Z.to_nat 3)%nat ∧
  read_xyz_from_file sample_int ["3"; "comment"; "h 0 0 0"] = Throw IndexError.
Proof.
  assert (["3"; "comment"; "h 0 0 0"] !! 0%nat = Some "3") as H0
    by reflexivity.
  assert (sample_int "3" = Some 3) as Hint by reflexivity.
  assert (length ["3"; "comment"; "h 0 0 0"] < 2 + Z.to_nat 3)%nat as Hlen
    by (vm_compute; lia).
  split; [exact H0|]. split; [exact Hint|]. split; [exact Hlen|].
  exact (proj2 (proj2 (read_xyz_from_file_errors sample_int
                         ["3"; "comment"; "h 0 0 0"])) "3" 3 H0 Hint Hlen).
Defined.

(** ** [strip] *)

Lemma last_rev {A} (l : list A) : last (rev l) = head l.
Proof. destruct l as [|x l]; [done|]. simpl. apply last_snoc. Qed.

Lemma head_rev {A} (l : list A) : head (rev l) = last l.
Proof. by rewrite <-last_rev, rev_involutive. Qed.

Lemma lstrip_list_spec chars (l : list ascii) :
  ∃ a, l = a ++ lstrip_list chars l ∧
       Forall (λ c, in_chars chars c = true) a ∧
       (∀ c, head (lstrip_list chars l) = Some c → in_chars chars c = false).
Proof.
  induction l as [|c l (a & Hl & Ha & Hhead)]; simpl.
  - exists []. split; [done|]. split; [constructor|done].
  - destruct (in_chars chars c) eqn:Hc.
    + exists (c :: a). split; [by rewrite <-app_comm_cons, <-Hl|].
      split; [by constructor|done].
    + exists []. split; [done|]. split; [constructor|].
      by intros ? [= <-].
Qed.

Lemma lstrip_list_id chars (l : list ascii) :
  (∀ c, head l = Some c → in_chars chars c = false) →
  lstrip_list chars l = l.
Proof. destruct l as [|c l]; simpl; [done|]. intros Hc. by rewrite Hc. Qed.

Lemma lstrip_list_app chars (a l : list ascii) :
  Forall (λ c, in_chars chars c = true) a →
  lstrip_list chars (a ++ l) = lstrip_list chars l.
Proof. induction 1 as [|c a Hc _ IH]; simpl; [done|by rewrite Hc]. Qed.

Lemma py_strip_ends (chars s : string) :
  let r := list_ascii_of_string (py_strip chars s) in
  ∃ a b, list_ascii_of_string s = a ++ r ++ b ∧
         Forall (λ c, in_chars chars c = true) a ∧
         Forall (λ c, in_chars chars c = true) b ∧
         (∀ c, head r = Some c → in_chars chars c = false) ∧
         (∀ c, last r = Some c → in_chars chars c = false).
Proof.
  unfold py_strip; cbv zeta.
  rewrite list_ascii_of_string_of_list_ascii.
  set (l := list_ascii_of_string s).
  destruct (lstrip_list_spec chars l) as (a & Hl & Ha & Hhead).
  set (l1 := lstrip_list chars l) in *.
  destruct (lstrip_list_spec chars (rev l1)) as (b & Hl1 & Hb & Hlast).
  set (l2 := lstrip_list chars (rev l1)) in *.
  assert (l1 = rev l2 ++ rev b) as Hl1'.
  { by rewrite <-rev_app_distr, <-Hl1, rev_involutive. }
  exists a, (rev b). split; [by rewrite <-Hl1'|]. split; [done|]. split.
  - apply Forall_forall. intros c Hc. rewrite Forall_forall in Hb. apply Hb.
    apply list_elem_of_In. apply list_elem_of_In in Hc. by apply in_rev.
  - split.
    + intros c Hc. apply Hhead. rewrite Hl1'. destruct (rev l2); [done|].
      by simplify_eq/=.
    + intros c Hc. apply Hlast. by rewrite last_rev in Hc.
Qed.

(** X22: the file name stored for the new computation is the given name
    without the longest run of the characters [.], [o], [u], [t] at its
    start and at its end: it neither starts nor ends with one of them. *)
Theorem recomputed_filename_ends (filename : string) :
  let r := list_ascii_of_string (recomputed_filename filename) in
  ∃ a b, list_ascii_of_string filename = a ++ r ++ b ∧
         Forall (λ c, in_chars ".out" c = true) a ∧
         Forall (λ c, in_chars ".out" c = true) b ∧
         (∀ c, head r = Some c → in_chars ".out" c = false) ∧
         (∀ c, last r = Some c → in_chars ".out" c = false).
Proof. apply py_strip_ends. Qed.

Lemma list_ascii_of_string_app (a b : string) :
  list_ascii_of_string (a +:+ b)
  = list_ascii_of_string a ++ list_ascii_of_string b.
Proof.
  induction a as [|x a IH]; [done|].
  rewrite append_cons. simpl. by rewrite IH.
Qed.

(** X23: taking [.out] off a name that ends in it gives the name before
    [.out] exactly when that name neither starts nor ends with one of [.],
    [o], [u], [t]. *)
Theorem recomputed_filename_suffix (base : string) :
  recomputed_filename (base +:+ ".out") = base
  ↔ (∀ c, head (list_ascii_of_string base) = Some c →
          in_chars ".out" c = false) ∧
    (∀ c, last (list_ascii_of_string base) = Some c →
          in_chars ".out" c = false).
Proof.
  split.
  - intros Heq.
    destruct (py_strip_ends ".out" (base +:+ ".out"))
      as (a & b & _ & _ & _ & Hh & Hl).
    fold (recomputed_filename (base +:+ ".out")) in Hh, Hl.
    rewrite Heq in Hh, Hl. done.
  - intros [Hh Hl]. unfold recomputed_filename, py_strip.
    rewrite list_ascii_of_string_app.
    set (lb := list_ascii_of_string base) in *.
    set (out := list_ascii_of_string ".out").
    assert (Forall (λ c, in_chars ".out" c = true) (rev out)) as Hout
      by (repeat constructor).
    assert (lstrip_list ".out" (lb ++ out) = lb ++ out ∨ lb = []) as [->|Hnil].
    { destruct lb as [|c lb']; [by right|left].
      apply lstrip_list_id. intros c' [= <-]. by apply Hh. }
    + rewrite rev_app_distr, lstrip_list_app by done.
      rewrite lstrip_list_id by (intros c; rewrite head_rev; apply Hl).
      rewrite rev_involutive. apply string_of_list_ascii_of_string.
    + rewrite Hnil. simpl. unfold lb in Hnil.
      rewrite <-(string_of_list_ascii_of_string base), Hnil. done.
Qed.
End qc_facts.
